(** * tiled: the TIFF-sequence reader and the block parameter of the router

    A shallow embedding of [tiled/readers/tiff_sequence.py] and of the
    [block] dependency of [catalog_server/server/router.py], together with
    the properties the specification states about them.

    Python values are modelled as follows: [int] is [Z]; [str] is [string],
    each character standing for one code point below 256; a raised exception
    is the [Raise] branch of [result]; the process-wide object cache is
    threaded explicitly through every call that touches it. *)

From Stdlib Require Import ZArith QArith List Sorted String Ascii Bool Lia SpecFloat.
Import ListNotations.
Local Open Scope Z_scope.

(** ** Exceptions and fallible results *)

Module Py.

Inductive exn : Type :=
| IndexError
| ZeroDivisionError
| ValueError
| TypeError
| UnboundLocalError
| AttributeError
| OSError.

Inductive result (A : Type) : Type :=
| Ok (a : A)
| Raise (e : exn).
Arguments Ok {A} a.
Arguments Raise {A} e.

Definition bind {A B : Type} (r : result A) (k : A -> result B) : result B :=
  match r with
  | Ok a => k a
  | Raise e => Raise e
  end.

(** [range(start, stop, step)], with CPython's length formula. *)
Definition range_len (start stop step : Z) : Z :=
  if 0 <? step then
    (if start <? stop then (stop - start - 1) / step + 1 else 0)
  else
    (if stop <? start then (start - stop - 1) / (- step) + 1 else 0).

Definition range (start stop step : Z) : result (list Z) :=
  if step =? 0 then Raise ValueError
  else Ok (map (fun k => start + step * Z.of_nat k)
               (seq 0 (Z.to_nat (range_len start stop step)))).

(** [l[i]] on a list: negative indices count from the end. *)
Definition getitem {A : Type} (l : list A) (i : Z) : result A :=
  let n := Z.of_nat (List.length l) in
  let j := if i <? 0 then i + n else i in
  if (0 <=? j) && (j <? n) then
    match nth_error l (Z.to_nat j) with
    | Some a => Ok a
    | None => Raise IndexError
    end
  else Raise IndexError.

(** [s[-k:]] on a string, for a non-negative [k]. *)
Definition last_chars (k : nat) (s : string) : string :=
  let n := String.length s in
  substring (n - k) (Nat.min k n) s.

(** [str.isdigit] on code points below 256: the ASCII digits and the
    superscripts two, three and one. *)
Definition isdigit_char (c : ascii) : bool :=
  let n := nat_of_ascii c in
  ((48 <=? n) && (n <=? 57) || (n =? 178) || (n =? 179) || (n =? 185))%nat.

Fixpoint all_chars (p : ascii -> bool) (s : string) : bool :=
  match s with
  | EmptyString => true
  | String c s' => p c && all_chars p s'
  end.

Definition isdigit (s : string) : bool :=
  negb (String.eqb s EmptyString) && all_chars isdigit_char s.

Definition startswith (pre s : string) : bool := String.prefix pre s.

(** [s.rfind(c)]: the index of the last occurrence of [c], if any. *)
Fixpoint rfind (c : ascii) (s : string) : option nat :=
  match s with
  | EmptyString => None
  | String d s' =>
      match rfind c s' with
      | Some i => Some (S i)
      | None => if Ascii.eqb c d then Some 0%nat else None
      end
  end.

(** [sorted] on strings: a stable insertion sort under code-point order. *)
Fixpoint insert_sorted (x : string) (l : list string) : list string :=
  match l with
  | [] => [x]
  | y :: l' => if String.leb x y then x :: l else y :: insert_sorted x l'
  end.

Definition sorted (l : list string) : list string :=
  fold_right insert_sorted [] l.

(** [==] on tuples of integers. *)
Fixpoint ints_eqb (s t : list Z) : bool :=
  match s, t with
  | [], [] => true
  | x :: s', y :: t' => (x =? y) && ints_eqb s' t'
  | _, _ => false
  end.

(** A [for] loop or [map] whose body may raise. *)
Fixpoint map_result {A B : Type} (f : A -> result B) (l : list A)
    : result (list B) :=
  match l with
  | [] => Ok []
  | x :: l' =>
      bind (f x) (fun y => bind (map_result f l') (fun ys => Ok (y :: ys)))
  end.

End Py.
Export Py.

Notation "x <- r ;; k" := (bind r (fun x => k))
  (at level 61, r at next level, right associativity).

(** ** Binary64 arithmetic

    [a / b] on Python integers is the correctly rounded quotient, computed
    here by the standard library's reference division on the exact
    integers; [<=] is the IEEE comparison. *)

Module Float64.

Definition prec : Z := 53.
Definition emax : Z := 1024.

Definition of_int (a : Z) : spec_float :=
  match a with
  | Z0 => S754_zero false
  | Zpos p => S754_finite false p 0
  | Zneg p => S754_finite true p 0
  end.

Definition truediv (a b : Z) : result spec_float :=
  if b =? 0 then Raise ZeroDivisionError
  else Ok (SFdiv prec emax (of_int a) (of_int b)).

Definition le (x y : spec_float) : bool := SFleb x y.

(** The literal [0.2]: 0x3FC999999999999A. *)
Definition lit_0_2 : spec_float := S754_finite false 7205759403792794 (-55).

End Float64.

Example truediv_1_5 : Float64.truediv 1 5 = Ok Float64.lit_0_2.
Proof. vm_compute. reflexivity. Qed.

Example truediv_5_105 :
  Float64.truediv 5 105 = Ok (S754_finite false 6862628003612184 (-57)).
Proof. vm_compute. reflexivity. Qed.

(** ** [str], [repr] and [encode] on the strings of a file list *)

Module PyStr.

Definition hex_digit (n : nat) : ascii :=
  nth n (list_ascii_of_string "0123456789abcdef") "0"%char.

Definition hex2 (n : nat) : string :=
  String (hex_digit (n / 16)) (String (hex_digit (n mod 16)) EmptyString).

Fixpoint contains (c : ascii) (s : string) : bool :=
  match s with
  | EmptyString => false
  | String d s' => Ascii.eqb c d || contains c s'
  end.

Definition apostrophe : ascii := ascii_of_nat 39.
Definition quotation : ascii := ascii_of_nat 34.
Definition backslash : ascii := ascii_of_nat 92.

(** The quote [repr] picks: a double quote only when the string holds an
    apostrophe and no double quote. *)
Definition repr_quote (s : string) : ascii :=
  if contains apostrophe s && negb (contains quotation s)
  then quotation else apostrophe.

(** Code points below 256 that [repr] writes as they are. *)
Definition isprintable (n : nat) : bool :=
  ((32 <=? n) && (n <? 127) || (161 <=? n) && negb (n =? 173))%nat.

Definition repr_char (q c : ascii) : string :=
  let n := nat_of_ascii c in
  if Ascii.eqb c q || Ascii.eqb c backslash then String backslash (String c EmptyString)
  else if (n =? 9)%nat then String backslash "t"
  else if (n =? 10)%nat then String backslash "n"
  else if (n =? 13)%nat then String backslash "r"
  else if isprintable n then String c EmptyString
  else String backslash (String "x"%char (hex2 n)).

Fixpoint repr_body (q : ascii) (s : string) : string :=
  match s with
  | EmptyString => EmptyString
  | String c s' => (repr_char q c ++ repr_body q s')%string
  end.

Definition repr (s : string) : string :=
  let q := repr_quote s in
  String q (repr_body q s ++ String q EmptyString)%string.

(** [str(l)] for a list of strings. *)
Definition str_list (l : list string) : string :=
  ("[" ++ String.concat ", " (map repr l) ++ "]")%string.

(** [s.encode()]: UTF-8, one or two bytes for a code point below 256. *)
Definition encode_char (c : ascii) : list Z :=
  let n := Z.of_nat (nat_of_ascii c) in
  if n <? 128 then [n]
  else [Z.lor 192 (Z.shiftr n 6); Z.lor 128 (Z.land n 63)].

Fixpoint encode (s : string) : list Z :=
  match s with
  | EmptyString => []
  | String c s' => encode_char c ++ encode s'
  end.

End PyStr.

(** ** [hashlib.md5] (RFC 1321) on a list of bytes *)

Module Hashlib.

Definition w32 (x : Z) : Z := x mod 4294967296.

Definition not32 (x : Z) : Z := Z.lxor x 4294967295.

Definition rotl (x n : Z) : Z :=
  w32 (Z.lor (Z.shiftl x n) (Z.shiftr x (32 - n))).

Definition shifts : list Z :=
  [7; 12; 17; 22; 7; 12; 17; 22; 7; 12; 17; 22; 7; 12; 17; 22;
   5; 9; 14; 20; 5; 9; 14; 20; 5; 9; 14; 20; 5; 9; 14; 20;
   4; 11; 16; 23; 4; 11; 16; 23; 4; 11; 16; 23; 4; 11; 16; 23;
   6; 10; 15; 21; 6; 10; 15; 21; 6; 10; 15; 21; 6; 10; 15; 21].

Definition sines : list Z :=
  [0xd76aa478; 0xe8c7b756; 0x242070db; 0xc1bdceee;
   0xf57c0faf; 0x4787c62a; 0xa8304613; 0xfd469501;
   0x698098d8; 0x8b44f7af; 0xffff5bb1; 0x895cd7be;
   0x6b901122; 0xfd987193; 0xa679438e; 0x49b40821;
   0xf61e2562; 0xc040b340; 0x265e5a51; 0xe9b6c7aa;
   0xd62f105d; 0x02441453; 0xd8a1e681; 0xe7d3fbc8;
   0x21e1cde6; 0xc33707d6; 0xf4d50d87; 0x455a14ed;
   0xa9e3e905; 0xfcefa3f8; 0x676f02d9; 0x8d2a4c8a;
   0xfffa3942; 0x8771f681; 0x6d9d6122; 0xfde5380c;
   0xa4beea44; 0x4bdecfa9; 0xf6bb4b60; 0xbebfbc70;
   0x289b7ec6; 0xeaa127fa; 0xd4ef3085; 0x04881d05;
   0xd9d4d039; 0xe6db99e5; 0x1fa27cf8; 0xc4ac5665;
   0xf4292244; 0x432aff97; 0xab9423a7; 0xfc93a039;
   0x655b59c3; 0x8f0ccc92; 0xffeff47d; 0x85845dd1;
   0x6fa87e4f; 0xfe2ce6e0; 0xa3014314; 0x4e0811a1;
   0xf7537e82; 0xbd3af235; 0x2ad7d2bb; 0xeb86d391].

Definition le_bytes (k : nat) (x : Z) : list Z :=
  map (fun i => (x / 256 ^ Z.of_nat i) mod 256) (seq 0 k).

Definition pad (msg : list Z) : list Z :=
  let n := Z.of_nat (List.length msg) in
  msg ++ [128] ++ repeat 0 (Z.to_nat ((55 - n) mod 64))
      ++ le_bytes 8 ((8 * n) mod 2 ^ 64).

Fixpoint blocks (fuel : nat) (l : list Z) : list (list Z) :=
  match fuel, l with
  | O, _ => []
  | _, [] => []
  | S fuel', _ => firstn 64 l :: blocks fuel' (skipn 64 l)
  end.

Definition word (block : list Z) (j : nat) : Z :=
  nth (4 * j) block 0 + 256 * nth (4 * j + 1) block 0
  + 65536 * nth (4 * j + 2) block 0 + 16777216 * nth (4 * j + 3) block 0.

Definition state : Type := (Z * Z * Z * Z)%type.

Definition round (block : list Z) (st : state) (i : nat) : state :=
  let '(a, b, c, d) := st in
  let iz := Z.of_nat i in
  let '(f, g) :=
    if (i <? 16)%nat then (Z.lor (Z.land b c) (Z.land (not32 b) d), iz)
    else if (i <? 32)%nat then
      (Z.lor (Z.land d b) (Z.land (not32 d) c), (5 * iz + 1) mod 16)
    else if (i <? 48)%nat then (Z.lxor (Z.lxor b c) d, (3 * iz + 5) mod 16)
    else (Z.lxor c (Z.lor b (not32 d)), (7 * iz) mod 16) in
  let f' := w32 (f + a + nth i sines 0 + word block (Z.to_nat g)) in
  (d, w32 (b + rotl f' (nth i shifts 0)), b, c).

Definition compress (st : state) (block : list Z) : state :=
  let '(a0, b0, c0, d0) := st in
  let '(a, b, c, d) := fold_left (round block) (seq 0 64) st in
  (w32 (a0 + a), w32 (b0 + b), w32 (c0 + c), w32 (d0 + d)).

Definition init : state := (0x67452301, 0xefcdab89, 0x98badcfe, 0x10325476).

Definition md5 (msg : list Z) : state :=
  let padded := pad msg in
  fold_left compress (blocks (List.length padded) padded) init.

Definition hexdigest (st : state) : string :=
  let '(a, b, c, d) := st in
  String.concat EmptyString
    (map (fun x => PyStr.hex2 (Z.to_nat x))
         (le_bytes 4 a ++ le_bytes 4 b ++ le_bytes 4 c ++ le_bytes 4 d)).

End Hashlib.

Example md5_empty :
  Hashlib.hexdigest (Hashlib.md5 []) = "d41d8cd98f00b204e9800998ecf8427e"%string.
Proof. vm_compute. reflexivity. Qed.

Example md5_abc :
  Hashlib.hexdigest (Hashlib.md5 (PyStr.encode "abc"))
  = "900150983cd24fb0d6963f7d28e17f72"%string.
Proof. vm_compute. reflexivity. Qed.

Example md5_two_blocks :
  Hashlib.hexdigest (Hashlib.md5 (repeat 97 100))
  = "36a92cc94a9e0fa21f625f8bfb007adf"%string.
Proof. vm_compute. reflexivity. Qed.

Example md5_of_file_list :
  Hashlib.hexdigest
    (Hashlib.md5
       (PyStr.encode
          (PyStr.str_list
             ["/data/img001.tif"; "/data/it's002.tif";
              "/data/a\b" ++ String (ascii_of_nat 233)
                 (String (ascii_of_nat 133) ".tif")]%string)))
  = "29355835b373a1a23b3aafef89cf4dfc"%string.
Proof. vm_compute. reflexivity. Qed.

(** ** Arrays

    A [numpy] array is its shape and its elements in row-major order. *)

Module Numpy.

Record ndarray : Type := { shape : list Z; data : list Z }.

(** [numpy.stack(arrays)] along a new axis 0: the list must not be empty
    and the arrays must share one shape. *)
Definition stack (arrays : list ndarray) : result ndarray :=
  match arrays with
  | [] => Raise ValueError
  | a :: rest =>
      if forallb (fun b => ints_eqb (shape a) (shape b)) rest then
        Ok {| shape := Z.of_nat (List.length arrays) :: shape a;
              data := List.concat (map data arrays) |}
      else Raise ValueError
  end.

End Numpy.
Export Numpy.

(** ** Selectors

    The values [read] and [read_block] receive as [slice]: [None], an
    [int], a [builtins.slice], a [tuple], or an object of another type. *)

#[warnings="-register-all"]
Inductive pyval : Type :=
| PNone
| PInt (i : Z)
| PSlice (start stop step : option Z)
| PTuple (items : list pyval)
| PObject (type_name : string).

(** ** The object cache *)

Module ObjectCache.

Inductive keypart : Type :=
| KStr (s : string)
| KInt (i : Z).

Definition key : Type := list keypart.

Definition keypart_eqb (a b : keypart) : bool :=
  match a, b with
  | KStr s, KStr t => String.eqb s t
  | KInt i, KInt j => i =? j
  | _, _ => false
  end.

Fixpoint key_eqb (a b : key) : bool :=
  match a, b with
  | [], [] => true
  | x :: a', y :: b' => keypart_eqb x y && key_eqb a' b'
  | _, _ => false
  end.

(** The stored entries, most recently used first, under a bound on their
    number. *)
Record cache : Type := { capacity : nat; entries : list (key * ndarray) }.

Definition empty (capacity : nat) : cache :=
  {| capacity := capacity; entries := [] |}.

Definition lookup (k : key) (es : list (key * ndarray)) : option ndarray :=
  option_map snd (find (fun kv => key_eqb k (fst kv)) es).

Definition remove (k : key) (es : list (key * ndarray)) :=
  filter (fun kv => negb (key_eqb k (fst kv))) es.

(** Modelled from the spec: [with_object_cache] of
    [tiled/server/object_cache.py], which is not among the sources. On a hit
    the stored value is returned and the factory is not called; on a miss
    the factory runs once, its value is stored under the key and returned,
    and the least recently used entries beyond the bound are evicted; when
    the factory fails nothing is stored and the failure is delivered to the
    caller. *)
Definition with_object_cache (k : key) (factory : unit -> result ndarray)
    (c : cache) : result ndarray * cache :=
  match lookup k (entries c) with
  | Some v =>
      (Ok v, {| capacity := capacity c;
                entries := (k, v) :: remove k (entries c) |})
  | None =>
      match factory tt with
      | Ok v =>
          (Ok v, {| capacity := capacity c;
                    entries := firstn (capacity c) ((k, v) :: entries c) |})
      | Raise e => (Raise e, c)
      end
  end.

(** Computations that read and update the cache and may raise. *)
Definition M (A : Type) : Type := cache -> result A * cache.

Definition ret {A : Type} (a : A) : M A := fun c => (Ok a, c).

Definition raise {A : Type} (e : exn) : M A := fun c => (Raise e, c).

Definition lift {A : Type} (r : result A) : M A := fun c => (r, c).

Definition mbind {A B : Type} (m : M A) (k : A -> M B) : M B :=
  fun c =>
    match m c with
    | (Ok a, c') => k a c'
    | (Raise e, c') => (Raise e, c')
    end.

(** A list comprehension whose element expression uses the cache. *)
Fixpoint for_each {A B : Type} (f : A -> M B) (l : list A) : M (list B) :=
  match l with
  | [] => ret []
  | x :: l' =>
      mbind (f x) (fun y => mbind (for_each f l') (fun ys => ret (y :: ys)))
  end.

End ObjectCache.
Export ObjectCache.

Notation "x <~ m ;; k" := (mbind m (fun x => k))
  (at level 61, m at next level, right associativity).

(** ** [pathlib] names and directory listings *)

Module Pathlib.

(** One child of a directory, as [Path.iterdir] yields it. *)
Record dirent : Type := { name : string; is_file : bool }.

(** A directory: its path and its children in iteration order. *)
Record directory : Type := { dirpath : string; iterdir : list dirent }.

(** The position of the dot that starts the suffix: the last dot, when it
    is neither the first nor the last character of the name. *)
Definition suffix_start (nm : string) : option nat :=
  match rfind "."%char nm with
  | Some i =>
      if ((0 <? i) && (i <? String.length nm - 1))%nat then Some i else None
  | None => None
  end.

Definition suffix (nm : string) : string :=
  match suffix_start nm with
  | Some i => substring i (String.length nm - i) nm
  | None => EmptyString
  end.

Definition stem (nm : string) : string :=
  match suffix_start nm with
  | Some i => substring 0 i nm
  | None => nm
  end.

(** [str(path / name)], where [dirpath d] is [str(path)]: the name alone
    under the current directory ["."], appended to a root (["/"] or ["//"],
    the only paths that end with a slash), and joined with a slash
    otherwise. *)
Definition ends_with_slash (s : string) : bool :=
  match get (String.length s - 1) s with
  | Some c => Ascii.eqb c "/"
  | None => false
  end.

Definition child_path (d : directory) (e : dirent) : string :=
  if String.eqb (dirpath d) "." then name e
  else if ends_with_slash (dirpath d) then (dirpath d ++ name e)%string
  else (dirpath d ++ "/" ++ name e)%string.

End Pathlib.
Export Pathlib.

(** ** [tifffile.TiffSequence] *)

Module Tifffile.

(** The sequence object: the file names it was built from, as strings. *)
Record TiffSequence : Type := { files : list string }.

(** The constructor refuses an empty file list. *)
Definition TiffSequence_new (fs : list string) : result TiffSequence :=
  match fs with
  | [] => Raise ValueError
  | _ => Ok {| files := fs |}
  end.

End Tifffile.
Export Tifffile.

(** ** [tiled/readers/tiff_sequence.py] *)

Record TiffSequenceReader : Type := {
  _seq : TiffSequence;
  _metadata : list (string * string);
  _cache_key : key
}.

Definition module_name : string := "tiled.readers.tiff_sequence".
Definition qualname : string := "TiffSequenceReader".

(** [hashlib.md5(str(seq.files).encode()).hexdigest()]. *)
Definition fingerprint (fs : list string) : string :=
  Hashlib.hexdigest (Hashlib.md5 (PyStr.encode (PyStr.str_list fs))).

(** [TiffSequenceReader.__init__]. *)
Definition TiffSequenceReader_init (seq : TiffSequence) : TiffSequenceReader :=
  {| _seq := seq;
     _metadata := [];
     _cache_key := [KStr module_name; KStr qualname;
                    KStr (fingerprint (files seq))] |}.

Definition RELATIVE_THRESHOLD : spec_float := Float64.lit_0_2.
Definition ABSOLUTE_THRESHOLD : Z := 10.

(** The test of line 30: the suffix is [.tif] or [.tiff] and the last
    three characters of the stem (fewer when the stem is shorter) are
    digits. *)
Definition looks_like_sequence_file (nm : string) : bool :=
  (String.eqb (suffix nm) ".tif" || String.eqb (suffix nm) ".tiff")
  && isdigit (last_chars 3 (stem nm)).

(** One iteration of the loop over [path.iterdir()], on the pair of
    [filepaths] and [outliers]. *)
Definition sniff_step (d : directory) (acc : list string * Z) (e : dirent)
    : list string * Z :=
  let '(filepaths, outliers) := acc in
  if negb (is_file e) then acc
  else if startswith "." (name e) then acc
  else if looks_like_sequence_file (name e)
       then (filepaths ++ [child_path d e], outliers)
       else (filepaths, outliers + 1).

Definition sniff_loop (d : directory) : list string * Z :=
  fold_left (sniff_step d) (iterdir d) ([], 0).

Definition subdirectory_handler (path : directory)
    : result (option TiffSequenceReader) :=
  let '(filepaths, outliers) := sniff_loop path in
  fraction <- Float64.truediv outliers
                (outliers + Z.of_nat (List.length filepaths)) ;;
  if (outliers <=? ABSOLUTE_THRESHOLD)
     && Float64.le fraction RELATIVE_THRESHOLD
  then
    seq <- TiffSequence_new (sorted filepaths) ;;
    Ok (Some (TiffSequenceReader_init seq))
  else Ok None.

(** ** [catalog_server/server/router.py]: the [block] query parameter *)

Module Router.

(** Regular expressions, as far as the pattern of [block] needs them. *)
Inductive regex : Type :=
| Bol                         (* ^ *)
| Eol                         (* $ *)
| Chr (c : ascii)
| Range (lo hi : ascii)       (* [lo-hi] *)
| Cat (r1 r2 : regex)
| Star (r : regex).

Definition newline : ascii := ascii_of_nat 10.

(** Zero or more rounds of [step], each of which has to read something;
    [n] bounds the number of rounds. *)
Fixpoint star_ends (step : nat -> list ascii -> list (nat * list ascii))
    (n : nat) (pos : nat) (s : list ascii) : list (nat * list ascii) :=
  (pos, s) ::
  match n with
  | O => []
  | S n' =>
      flat_map
        (fun ps => if (fst ps =? pos)%nat then []
                   else star_ends step n' (fst ps) (snd ps))
        (step pos s)
  end.

(** The positions at which a match of [r] that starts at position [pos],
    with [s] still to read, can end: each with what is left to read.
    [$] holds at the end of the text and just before a final newline. *)
Fixpoint ends (r : regex) (fuel : nat) (pos : nat) (s : list ascii)
    : list (nat * list ascii) :=
  match r with
  | Bol => if (pos =? 0)%nat then [(pos, s)] else []
  | Eol =>
      match s with
      | [] => [(pos, s)]
      | [c] => if Ascii.eqb c newline then [(pos, s)] else []
      | _ => []
      end
  | Chr c =>
      match s with
      | d :: s' => if Ascii.eqb c d then [(S pos, s')] else []
      | [] => []
      end
  | Range lo hi =>
      match s with
      | d :: s' =>
          if ((nat_of_ascii lo <=? nat_of_ascii d)
              && (nat_of_ascii d <=? nat_of_ascii hi))%nat
          then [(S pos, s')] else []
      | [] => []
      end
  | Cat r1 r2 =>
      flat_map (fun ps => ends r2 fuel (fst ps) (snd ps)) (ends r1 fuel pos s)
  | Star r1 => star_ends (ends r1 fuel) fuel pos s
  end.

(** [re.match(r, s)] finds a match. *)
Definition re_match (r : regex) (s : string) : bool :=
  let l := list_ascii_of_string s in
  match ends r (S (List.length l)) 0 l with
  | [] => false
  | _ => true
  end.

(** ["^[0-9](,[0-9])*$"]. *)
Definition block_pattern : regex :=
  Cat Bol
    (Cat (Range "0" "9")
       (Cat (Star (Cat (Chr ",") (Range "0" "9"))) Eol)).

(** The validation of [Query(..., min_length=1, regex=...)]. *)
Definition block_query_valid (raw : string) : bool :=
  (1 <=? String.length raw)%nat && re_match block_pattern raw.

(** [s.split(sep)] for a one-character separator. *)
Fixpoint split (sep : ascii) (s : string) : list string :=
  match s with
  | EmptyString => [EmptyString]
  | String c s' =>
      if Ascii.eqb c sep then EmptyString :: split sep s'
      else match split sep s' with
           | h :: t => String c h :: t
           | [] => [String c EmptyString]
           end
  end.

(** The characters [int] strips, among the code points below 256: the
    ASCII whitespace (tab to carriage return, and the space) and the two
    spaces above 127, U+0085 and U+00A0. The separators U+001C to U+001F
    are not stripped: [int] raises [ValueError] on them. *)
Definition isspace_char (c : ascii) : bool :=
  let n := nat_of_ascii c in
  ((9 <=? n) && (n <=? 13) || (n =? 32) || (n =? 133) || (n =? 160))%nat.

Fixpoint lstrip (l : list ascii) : list ascii :=
  match l with
  | c :: l' => if isspace_char c then lstrip l' else l
  | [] => []
  end.

Definition strip (l : list ascii) : list ascii :=
  rev (lstrip (rev (lstrip l))).

Definition decimal_value (c : ascii) : option Z :=
  let n := nat_of_ascii c in
  if ((48 <=? n) && (n <=? 57))%nat then Some (Z.of_nat n - 48) else None.

(** Digits with single underscores between them; [after_digit] tells
    whether the previous character was a digit, [acc] is the value read so
    far. *)
Fixpoint digits_value (l : list ascii) (after_digit : bool) (acc : Z)
    : option Z :=
  match l with
  | [] => if after_digit then Some acc else None
  | c :: l' =>
      match decimal_value c with
      | Some d => digits_value l' true (10 * acc + d)
      | None =>
          if Ascii.eqb c "_" && after_digit then digits_value l' false acc
          else None
      end
  end.

(** [int(s)] on a string. *)
Definition int (s : string) : result Z :=
  let body := strip (list_ascii_of_string s) in
  let '(negative, ds) :=
    match body with
    | c :: l' =>
        if Ascii.eqb c "-" then (true, l')
        else if Ascii.eqb c "+" then (false, l')
        else (false, body)
    | [] => (false, body)
    end in
  match digits_value ds false 0 with
  | Some v => Ok (if negative then - v else v)
  | None => Raise ValueError
  end.

(** The body of [block]: [tuple(map(int, block.split(",")))]. *)
Definition block (raw : string) : result (list Z) :=
  map_result int (split "," raw).

(** The dependency as a route sees it: [None] when the validation refuses
    the parameter and the body never runs. *)
Definition block_dependency (raw : string) : option (result (list Z)) :=
  if block_query_valid raw then Some (block raw) else None.

End Router.

Example block_1_0_0 : Router.block_dependency "1,0,0" = Some (Ok [1; 0; 0]).
Proof. vm_compute. reflexivity. Qed.

Example block_two_digits : Router.block_dependency "10,0,0" = None.
Proof. vm_compute. reflexivity. Qed.

Example block_final_newline :
  Router.block_dependency (String "7" (String Router.newline EmptyString))
  = Some (Ok [7]).
Proof. vm_compute. reflexivity. Qed.

Example block_empty : Router.block_dependency "" = None.
Proof. vm_compute. reflexivity. Qed.

Section Reader.

(** The environment of a reader: [imread] decodes the file of a given name
    (or raises); [asarray_all] is what the sequence returns when it is asked
    for all of its files at once; [legacy_api] tells a [tifffile] older than
    2021.10.10, whose [asarray] takes the keyword [file] and not [index];
    [np_getitem] is [arr[selector]] of [numpy]. *)
Variable imread : string -> result ndarray.
Variable asarray_all : list string -> result ndarray.
Variable legacy_api : bool.
Variable np_getitem : ndarray -> pyval -> result ndarray.

(** What [FileSequence.asarray] does once it has its argument: all the
    files, or the one at the given position of [files]. *)
Definition load (seq : TiffSequence) (index : option Z) : result ndarray :=
  match index with
  | None => asarray_all (files seq)
  | Some i => f <- getitem (files seq) i ;; imread f
  end.

(** [seq.asarray(index=index)]. *)
Definition asarray_kw_index (seq : TiffSequence) (index : option Z) :=
  if legacy_api then Raise TypeError else load seq index.

(** [seq.asarray(file=index)]. *)
Definition asarray_kw_file (seq : TiffSequence) (index : option Z) :=
  if legacy_api then load seq index else Raise TypeError.

Definition _safe_asarray (seq : TiffSequence) (index : option Z)
    : result ndarray :=
  match asarray_kw_index seq index with
  | Raise TypeError => asarray_kw_file seq index
  | r => r
  end.

(** [with_object_cache(self._cache_key + (i,), _safe_asarray, self._seq,
    index=i)]. *)
Definition cached_frame (self : TiffSequenceReader) (i : Z) : M ndarray :=
  with_object_cache (_cache_key self ++ [KInt i])
    (fun _ => _safe_asarray (_seq self) (Some i)).

(** The stacking of lines 93-108 and of lines 113-126. *)
Definition read_slice (self : TiffSequenceReader)
    (start stop step : option Z) : M ndarray :=
  let slice_start := match start with None => 0 | Some s => s end in
  let slice_step := match step with None => 1 | Some s => s end in
  match stop with
  | None => raise TypeError
  | Some stop' =>
      idxs <~ lift (range slice_start stop' slice_step) ;;
      frames <~ for_each (cached_frame self) idxs ;;
      lift (stack frames)
  end.

(** [TiffSequenceReader.read]; [Ok None] is a call that returns [None]. *)
Definition read (self : TiffSequenceReader) (slice : pyval)
    : M (option ndarray) :=
  match slice with
  | PNone =>
      arr <~ with_object_cache (_cache_key self)
               (fun _ => _safe_asarray (_seq self) None) ;;
      ret (Some arr)
  | PInt i =>
      arr <~ cached_frame self i ;;
      ret (Some arr)
  | PTuple [] => raise ValueError
  | PTuple (image_axis :: the_rest) =>
      arr <~ match image_axis with
             | PInt i => cached_frame self i
             | PSlice start stop step => read_slice self start stop step
             | _ => raise UnboundLocalError
             end ;;
      arr' <~ lift (np_getitem arr (PTuple the_rest)) ;;
      ret (Some arr')
  | PSlice start stop step =>
      arr <~ read_slice self start stop step ;;
      ret (Some arr)
  | PObject _ => ret None
  end.

(** [TiffSequenceReader.read_block]; a block is a tuple of integers. *)
Definition read_block (self : TiffSequenceReader) (block : list Z)
    (slice : pyval) : M (option ndarray) :=
  if negb (ints_eqb (tl block) [0; 0]) then raise IndexError
  else
    b0 <~ lift (getitem block 0) ;;
    arr <~ read self (PSlice (Some b0) (Some (b0 + 1)) None) ;;
    match slice with
    | PNone => ret arr
    | _ =>
        match arr with
        | Some a => arr' <~ lift (np_getitem a slice) ;; ret (Some arr')
        | None => raise TypeError
        end
    end.

Record ArrayMacroStructure : Type := {
  ms_shape : list Z;
  ms_chunks : list (list Z)
}.

(** [TiffSequenceReader.macrostructure]. *)
Definition macrostructure (self : TiffSequenceReader)
    : M ArrayMacroStructure :=
  first <~ read self (PInt 0) ;;
  match first with
  | None => raise AttributeError
  | Some arr =>
      let shape := Z.of_nat (List.length (files (_seq self)))
                   :: Numpy.shape arr in
      s0 <~ lift (getitem shape 0) ;;
      s1 <~ lift (getitem shape 1) ;;
      s2 <~ lift (getitem shape 2) ;;
      ret {| ms_shape := shape;
             ms_chunks := [repeat 1 (Z.to_nat s0); [s1]; [s2]] |}
  end.

(** [TiffSequenceReader.metadata]. *)
Definition metadata (self : TiffSequenceReader) : list (string * string) :=
  _metadata self.

End Reader.

(** * Facts about the binary64 quotient *)

Module Float64Facts.
Import Float64.






















End Float64Facts.

(** * The detector [subdirectory_handler] *)

(** The entries the loop counts: regular files whose name does not start
    with a dot. *)
Definition eligible (e : dirent) : bool :=
  is_file e && negb (startswith "." (name e)).

Definition is_match (e : dirent) : bool :=
  eligible e && looks_like_sequence_file (name e).

Definition is_outlier (e : dirent) : bool :=
  eligible e && negb (looks_like_sequence_file (name e)).

Definition matches (d : directory) : Z :=
  Z.of_nat (List.length (filter is_match (iterdir d))).

Definition outliers (d : directory) : Z :=
  Z.of_nat (List.length (filter is_outlier (iterdir d))).


(** The reader the detector builds when it accepts. *)
Definition sniffed_reader (d : directory) : TiffSequenceReader :=
  TiffSequenceReader_init
    {| files := sorted (map (child_path d) (filter is_match (iterdir d))) |}.

Lemma sniff_step_counts (d : directory) (es : list dirent) :
  forall fps o,
    fold_left (sniff_step d) es (fps, o)
    = (fps ++ map (child_path d) (filter is_match es),
       o + Z.of_nat (List.length (filter is_outlier es))).
Proof.
  induction es as [|e es IH]; intros fps o; cbn [fold_left filter].
  - cbn. rewrite app_nil_r. f_equal. lia.
  - assert (Hstep : sniff_step d (fps, o) e
                    = (fps ++ (if is_match e then [child_path d e] else []),
                       (o + (if is_outlier e then 1 else 0))%Z)).
    { unfold sniff_step, is_match, is_outlier, eligible.
      destruct (is_file e), (startswith "." (name e)),
        (looks_like_sequence_file (name e));
        cbn [negb andb]; rewrite ?app_nil_r, ?Z.add_0_r; reflexivity. }
    rewrite Hstep, IH.
    destruct (is_match e), (is_outlier e); cbn [map List.length app];
      rewrite ?app_nil_r, <- ?app_assoc; f_equal; try reflexivity; lia.
Qed.

Lemma sniff_loop_counts (d : directory) :
  sniff_loop d
  = (map (child_path d) (filter is_match (iterdir d)), outliers d).
Proof. unfold sniff_loop. rewrite sniff_step_counts. reflexivity. Qed.






(** Directories used as test inputs. *)
Module Dirs.

Definition digit (n : nat) : ascii := ascii_of_nat (48 + n mod 10).

(** [n] written with three digits, as in [img007.tif]. *)
Definition three_digits (n : nat) : string :=
  String (digit (n / 100)) (String (digit (n / 10)) (String (digit n) "")).

Definition regular (nm : string) : dirent := {| name := nm; is_file := true |}.

Definition frames (prefix : string) (count : nat) : list dirent :=
  map (fun k => regular (prefix ++ three_digits k ++ ".tif")) (seq 1 count).

Definition others (count : nat) : list dirent :=
  map (fun k => regular ("notes" ++ three_digits k ++ ".txt")) (seq 1 count).

(** [img001.tif] ... [img100.tif] and five unrelated files. *)
Definition hundred_and_five : directory :=
  {| dirpath := "/data/scan"; iterdir := frames "img" 100 ++ others 5 |}.

(** Fifty sequence files and twenty other files. *)
Definition fifty_and_twenty : directory :=
  {| dirpath := "/data/mixed"; iterdir := others 20 ++ frames "img" 50 |}.

(** No children at all. *)
Definition empty_dir : directory := {| dirpath := "/data/empty"; iterdir := [] |}.

(** Only a hidden file and a subdirectory. *)
Definition nothing_eligible : directory :=
  {| dirpath := "/data/new";
     iterdir := [regular ".DS_Store"; {| name := "raw"; is_file := false |}] |}.

End Dirs.

Example counts_hundred_and_five :
  (matches Dirs.hundred_and_five, outliers Dirs.hundred_and_five)
  = (100, 5)%Z.
Proof. vm_compute. reflexivity. Qed.

Example counts_fifty_and_twenty :
  (matches Dirs.fifty_and_twenty, outliers Dirs.fifty_and_twenty)
  = (50, 20)%Z.
Proof. vm_compute. reflexivity. Qed.

(** A stem shorter than three characters is tested as a whole, and an
    upper-case suffix does not count. *)
Example short_stem_matches : looks_like_sequence_file "7.tif" = true.
Proof. reflexivity. Qed.

Example upper_case_suffix : looks_like_sequence_file "img001.TIF" = false.
Proof. reflexivity. Qed.

Example two_digits_only : looks_like_sequence_file "img_01.tiff" = false.
Proof. reflexivity. Qed.

Lemma no_eligible_counts (d : directory) :
  (forall e, In e (iterdir d) -> eligible e = false) ->
  matches d = 0%Z /\ outliers d = 0%Z.
Proof.
  intros H. unfold matches, outliers.
  assert (E : forall p, (forall e, p e = true -> eligible e = true) ->
                        filter p (iterdir d) = []).
  { intros p Hp. induction (iterdir d) as [|e es IH]; [reflexivity|].
    cbn [filter]. destruct (p e) eqn:Ep.
    - apply Hp in Ep. rewrite (H e (or_introl eq_refl)) in Ep. discriminate.
    - apply IH. intros e' He'. apply H. now right. }
  rewrite !E; [split; reflexivity| |];
    intros e He; unfold is_outlier, is_match in He;
    apply andb_true_iff in He; tauto.
Qed.

(** C1 (as the code behaves): on a directory without a single eligible
    entry, that is, no regular file whose name does not start with a dot,
    [subdirectory_handler] divides zero by zero at line 36 and raises
    [ZeroDivisionError]; it does not return [None]. *)
Theorem subdirectory_handler_no_eligible_entry (d : directory) :
  (forall e, In e (iterdir d) -> eligible e = false) ->
  subdirectory_handler d = Raise ZeroDivisionError.
Proof.
  intros H. destruct (no_eligible_counts d H) as [Hm Ho].
  unfold subdirectory_handler. rewrite sniff_loop_counts.
  rewrite length_map. fold (matches d). rewrite Hm, Ho. reflexivity.
Qed.

Lemma subdirectory_handler_no_eligible_entry_witness :
  subdirectory_handler Dirs.empty_dir = Raise ZeroDivisionError
  /\ subdirectory_handler Dirs.nothing_eligible = Raise ZeroDivisionError.
Proof.
  split.
  - apply (subdirectory_handler_no_eligible_entry Dirs.empty_dir).
    simpl. intros e [].
  - apply (subdirectory_handler_no_eligible_entry Dirs.nothing_eligible).
    simpl. intros e [<-|[<-|[]]]; reflexivity.
Defined.



(** * The reader: [read], [read_block] and [macrostructure] *)

Section ReaderFacts.

Variable imread : string -> result ndarray.
Variable asarray_all : list string -> result ndarray.
Variable legacy_api : bool.
Variable np_getitem : ndarray -> pyval -> result ndarray.

Local Abbreviation load := (load imread asarray_all).
Local Abbreviation _safe_asarray := (_safe_asarray imread asarray_all legacy_api).
Local Abbreviation cached_frame := (cached_frame imread asarray_all legacy_api).
Local Abbreviation read_slice := (read_slice imread asarray_all legacy_api).
Local Abbreviation read := (read imread asarray_all legacy_api np_getitem).
Local Abbreviation read_block :=
  (read_block imread asarray_all legacy_api np_getitem).
Local Abbreviation macrostructure :=
  (macrostructure imread asarray_all legacy_api np_getitem).

(** *** Keys and lookups *)

Lemma keypart_eqb_eq (a b : keypart) : keypart_eqb a b = true <-> a = b.
Proof.
  destruct a as [s|i], b as [t|j]; simpl; split; intros H;
    try discriminate; try congruence.
  - apply String.eqb_eq in H. congruence.
  - apply String.eqb_eq. congruence.
  - apply Z.eqb_eq in H. congruence.
  - apply Z.eqb_eq. congruence.
Qed.

Lemma key_eqb_eq (a b : key) : key_eqb a b = true <-> a = b.
Proof.
  revert b. induction a as [|x a IH]; intros [|y b]; simpl; split; intros H;
    try discriminate; try reflexivity.
  - apply andb_true_iff in H. destruct H as [H1 H2].
    apply keypart_eqb_eq in H1. apply IH in H2. congruence.
  - injection H as -> ->. apply andb_true_iff. split.
    + now apply keypart_eqb_eq.
    + now apply IH.
Qed.

Lemma key_eqb_neq (a b : key) : a <> b -> key_eqb a b = false.
Proof.
  intros H. destruct (key_eqb a b) eqn:E; [|reflexivity].
  apply key_eqb_eq in E. contradiction.
Qed.

Lemma lookup_In k es v : lookup k es = Some v -> In (k, v) es.
Proof.
  unfold lookup. destruct (find _ es) as [[k' v']|] eqn:E; [|discriminate].
  simpl. intros [= ->]. apply find_some in E. destruct E as [Hin Hk].
  simpl in Hk. apply key_eqb_eq in Hk. now subst.
Qed.

Lemma lookup_remove_other k k' es :
  k' <> k -> lookup k' (remove k es) = lookup k' es.
Proof.
  intros Hne. unfold lookup, remove. f_equal.
  induction es as [|[k0 v0] es IH]; [reflexivity|]. cbn [filter find fst].
  destruct (key_eqb k k0) eqn:E.
  - apply key_eqb_eq in E. subst k0. cbn [negb].
    rewrite (key_eqb_neq k' k Hne). exact IH.
  - cbn [negb find fst]. destruct (key_eqb k' k0); [reflexivity|exact IH].
Qed.

Lemma lookup_firstn k n es v :
  lookup k (firstn n es) = Some v -> lookup k es = Some v.
Proof.
  unfold lookup. revert n. induction es as [|[k0 v0] es IH]; intros [|n];
    cbn [firstn find fst]; try discriminate.
  destruct (key_eqb k k0); [trivial|apply IH].
Qed.

Lemma In_firstn_in {A : Type} (x : A) n l : In x (firstn n l) -> In x l.
Proof.
  revert n. induction l as [|y l IH]; intros [|n]; simpl; try tauto.
  intros [->|H]; [now left|right; eauto].
Qed.

Lemma In_remove_in k es kv : In kv (remove k es) -> In kv es.
Proof. unfold remove. intros H. apply filter_In in H. tauto. Qed.

(** *** What a call through the cache returns and stores *)

Lemma with_object_cache_result k f c :
  fst (with_object_cache k f c)
  = match lookup k (entries c) with Some v => Ok v | None => f tt end.
Proof.
  unfold with_object_cache. destruct (lookup k (entries c)); [reflexivity|].
  destruct (f tt); reflexivity.
Qed.

Lemma with_object_cache_lookup k f c k' v' :
  lookup k' (entries (snd (with_object_cache k f c))) = Some v' ->
  lookup k' (entries c) = Some v' \/ (k' = k /\ f tt = Ok v').
Proof.
  unfold with_object_cache.
  destruct (lookup k (entries c)) as [v|] eqn:El.
  - cbn [snd entries]. unfold lookup at 1. cbn [find fst].
    destruct (key_eqb k' k) eqn:E.
    + apply key_eqb_eq in E. subst k'. cbn. intros [= <-]. now left.
    + fold (lookup k' (remove k (entries c))).
      rewrite lookup_remove_other; [now left|].
      intros ->. rewrite (proj2 (key_eqb_eq k k) eq_refl) in E. discriminate.
  - destruct (f tt) as [v|e] eqn:Ef; cbn [snd entries]; [|now left].
    intros H. apply lookup_firstn in H. revert H.
    unfold lookup at 1. cbn [find fst].
    destruct (key_eqb k' k) eqn:E.
    + apply key_eqb_eq in E. subst k'. cbn. intros [= <-]. now right.
    + intros H. now left.
Qed.

Lemma with_object_cache_entries k f c k' v' :
  In (k', v') (entries (snd (with_object_cache k f c))) ->
  In (k', v') (entries c) \/ (k' = k /\ f tt = Ok v').
Proof.
  unfold with_object_cache.
  destruct (lookup k (entries c)) as [v|] eqn:El.
  - cbn [snd entries]. intros [[= <- <-]|H].
    + left. now apply lookup_In.
    + left. eapply In_remove_in; eassumption.
  - destruct (f tt) as [v|e] eqn:Ef; cbn [snd entries]; [|now left].
    intros H. apply In_firstn_in in H. destruct H as [[= <- <-]|H].
    + now right.
    + now left.
Qed.

(** The keyword fallback changes nothing in what is loaded. *)
Lemma _safe_asarray_load (seq : TiffSequence) (index : option Z) :
  _safe_asarray seq index = load seq index.
Proof.
  unfold _safe_asarray, asarray_kw_index, asarray_kw_file.
  destruct legacy_api; [reflexivity|].
  destruct (load seq index) as [a|[]]; reflexivity.
Qed.

(** The frame entries of this reader hold what decoding would give. *)
Definition cache_ok (self : TiffSequenceReader) (c : cache) : Prop :=
  forall i v,
    lookup (_cache_key self ++ [KInt i]) (entries c) = Some v ->
    load (_seq self) (Some i) = Ok v.

Lemma cache_ok_empty (self : TiffSequenceReader) (n : nat) :
  cache_ok self (empty n).
Proof. intros i v H. discriminate. Qed.

Lemma indexed_key_inj (k : key) (i j : Z) :
  k ++ [KInt i] = k ++ [KInt j] -> i = j.
Proof. intros H. apply app_inv_head in H. congruence. Qed.

Lemma indexed_key_not_base (k : key) (i : Z) : k ++ [KInt i] <> k.
Proof.
  intros H. apply (f_equal (@List.length keypart)) in H.
  rewrite length_app in H. simpl in H. lia.
Qed.

Lemma cached_frame_spec (self : TiffSequenceReader) (i : Z) (c : cache) :
  cache_ok self c ->
  fst (cached_frame self i c) = load (_seq self) (Some i)
  /\ cache_ok self (snd (cached_frame self i c)).
Proof.
  intros Hok. unfold cached_frame. split.
  - rewrite with_object_cache_result.
    destruct (lookup _ (entries c)) as [v|] eqn:El.
    + symmetry. now apply Hok.
    + apply _safe_asarray_load.
  - intros j v H. apply with_object_cache_lookup in H.
    destruct H as [H|[Hk Hf]]; [now apply Hok|].
    apply indexed_key_inj in Hk. subst j.
    now rewrite _safe_asarray_load in Hf.
Qed.

Lemma cached_frame_entries (self : TiffSequenceReader) (i : Z) (c : cache) k v :
  In (k, v) (entries (snd (cached_frame self i c))) ->
  In (k, v) (entries c)
  \/ (k = _cache_key self ++ [KInt i] /\ load (_seq self) (Some i) = Ok v).
Proof.
  unfold cached_frame. intros H. apply with_object_cache_entries in H.
  cbv beta in H. rewrite _safe_asarray_load in H. exact H.
Qed.

(** Decoding the files at the given positions, one after the other. *)
Definition decode_all (seq : TiffSequence) (idxs : list Z)
    : result (list ndarray) :=
  map_result (fun i => load seq (Some i)) idxs.

Lemma for_each_cached_frame_spec (self : TiffSequenceReader) (idxs : list Z) :
  forall c, cache_ok self c ->
    fst (for_each (cached_frame self) idxs c) = decode_all (_seq self) idxs
    /\ cache_ok self (snd (for_each (cached_frame self) idxs c)).
Proof.
  induction idxs as [|i idxs IH]; intros c Hok; [now split|].
  cbn [for_each decode_all map_result]. unfold mbind.
  destruct (cached_frame_spec self i c Hok) as [Hr Hc].
  destruct (cached_frame self i c) as [[a|e] c1]; cbn [fst snd] in Hr, Hc;
    rewrite <- Hr; cbn [bind]; [|now split].
  destruct (IH c1 Hc) as [Hr' Hc']. fold (decode_all (_seq self) idxs).
  destruct (for_each (cached_frame self) idxs c1) as [[l|e] c2];
    cbn [fst snd] in Hr', Hc'; rewrite <- Hr'; now split.
Qed.

Lemma for_each_cached_frame_entries (self : TiffSequenceReader)
    (idxs : list Z) :
  forall c k v,
    In (k, v) (entries (snd (for_each (cached_frame self) idxs c))) ->
    In (k, v) (entries c)
    \/ exists i, In i idxs /\ k = _cache_key self ++ [KInt i]
                 /\ load (_seq self) (Some i) = Ok v.
Proof.
  induction idxs as [|i idxs IH]; intros c k v; [now left|].
  cbn [for_each]. unfold mbind.
  pose proof (cached_frame_entries self i c k v) as H1.
  destruct (cached_frame self i c) as [[a|e] c1]; cbn [snd] in H1.
  - specialize (IH c1 k v).
    destruct (for_each (cached_frame self) idxs c1) as [[l|e] c2];
      cbn [snd] in IH |- *; intros H; apply IH in H;
      (destruct H as [H|[j [Hj H]]];
       [apply H1 in H; destruct H as [H|H];
        [now left|right; exists i; split; [now left|exact H]]
       |right; exists j; split; [now right|exact H]]).
  - cbn [snd]. intros H. apply H1 in H. destruct H as [H|H]; [now left|].
    right. exists i. split; [now left|exact H].
Qed.

(** *** Ranges and stacks *)

Lemma range_single (b : Z) : range b (b + 1) 1 = Ok [b].
Proof.
  unfold range, range_len. change (1 =? 0) with false.
  change (0 <? 1) with true. cbv iota.
  rewrite (proj2 (Z.ltb_lt b (b + 1))) by lia.
  replace (b + 1 - b - 1) with 0 by lia.
  change (Z.to_nat (0 / 1 + 1)) with 1%nat. cbn [seq map].
  f_equal. f_equal. lia.
Qed.

Lemma affine_seq_sorted (a s : Z) (n : nat) :
  0 < s ->
  forall k0, StronglySorted Z.lt
               (map (fun k => a + s * Z.of_nat k) (seq k0 n)).
Proof.
  intros Hs. induction n as [|n IH]; intros k0; cbn [seq map].
  - constructor.
  - constructor; [apply IH|].
    apply Forall_forall. intros y Hy. apply in_map_iff in Hy.
    destruct Hy as [k [<- Hk]]. apply in_seq in Hk. nia.
Qed.

Lemma range_ascending (start stop step : Z) (idxs : list Z) :
  range start stop step = Ok idxs -> 0 < step -> StronglySorted Z.lt idxs.
Proof.
  unfold range. destruct (step =? 0); [discriminate|].
  intros [= <-] Hs. now apply affine_seq_sorted.
Qed.

Lemma ints_eqb_refl (s : list Z) : ints_eqb s s = true.
Proof. induction s as [|x s IH]; simpl; [reflexivity|]. now rewrite Z.eqb_refl. Qed.

Lemma stack_same_shape (frames : list ndarray) (sh : list Z) :
  frames <> [] -> Forall (fun f => shape f = sh) frames ->
  stack frames
  = Ok {| shape := Z.of_nat (List.length frames) :: sh;
          data := List.concat (map data frames) |}.
Proof.
  destruct frames as [|f rest]; [congruence|]. intros _ H.
  inversion H as [|? ? Hf Hrest]; subst. unfold stack.
  assert (E : forallb (fun b => ints_eqb (shape f) (shape b)) rest = true).
  { apply forallb_forall. intros b Hb.
    rewrite Forall_forall in Hrest. rewrite (Hrest b Hb).
    apply ints_eqb_refl. }
  rewrite E. reflexivity.
Qed.

(** The decoded content of the file at position [i] of the sorted list. *)
Definition frame_at (self : TiffSequenceReader) (i : Z) : result ndarray :=
  path <- getitem (files (_seq self)) i ;; imread path.

Lemma decode_all_frames (self : TiffSequenceReader) idxs frames :
  Forall2 (fun i f => frame_at self i = Ok f) idxs frames ->
  decode_all (_seq self) idxs = Ok frames.
Proof.
  induction 1 as [|i f idxs frames Hf _ IH]; [reflexivity|].
  cbn [decode_all map_result]. fold (decode_all (_seq self) idxs).
  change (load (_seq self) (Some i)) with (frame_at self i).
  now rewrite Hf, IH.
Qed.

Lemma read_slice_spec (self : TiffSequenceReader) start stop step c :
  cache_ok self c ->
  fst (read_slice self start (Some stop) step c)
  = (idxs <- range (match start with None => 0 | Some s => s end) stop
                   (match step with None => 1 | Some s => s end) ;;
     frames <- decode_all (_seq self) idxs ;;
     stack frames).
Proof.
  intros Hok. unfold read_slice, mbind, lift.
  destruct (range _ stop _) as [idxs|e]; [|reflexivity]. cbn [bind].
  destruct (for_each_cached_frame_spec self idxs c Hok) as [Hr _].
  destruct (for_each (cached_frame self) idxs c) as [[l|e] c1];
    cbn [fst] in Hr; rewrite <- Hr; reflexivity.
Qed.

Lemma read_slice_entries (self : TiffSequenceReader) start stop step c k v :
  In (k, v) (entries (snd (read_slice self start stop step c))) ->
  In (k, v) (entries c)
  \/ exists i, k = _cache_key self ++ [KInt i] /\ frame_at self i = Ok v.
Proof.
  unfold read_slice. destruct stop as [stop|]; [|now left].
  unfold mbind, lift.
  destruct (range _ stop _) as [idxs|e]; [|now left].
  pose proof (for_each_cached_frame_entries self idxs c k v) as H.
  destruct (for_each (cached_frame self) idxs c) as [[l|e] c1];
    cbn [snd] in H |- *; intros Hin; apply H in Hin;
    (destruct Hin as [Hin|[i [_ Hi]]]; [now left|right; now exists i]).
Qed.

Lemma read_slice_cache_ok (self : TiffSequenceReader) start stop step c :
  cache_ok self c -> cache_ok self (snd (read_slice self start stop step c)).
Proof.
  intros Hok. unfold read_slice. destruct stop as [stop|]; [|exact Hok].
  unfold mbind, lift.
  destruct (range _ stop _) as [idxs|e]; [|exact Hok].
  destruct (for_each_cached_frame_spec self idxs c Hok) as [_ Hc].
  destruct (for_each (cached_frame self) idxs c) as [[l|e] c1];
    cbn [snd] in Hc |- *; exact Hc.
Qed.

(** Whatever the selector, and whether it returns or raises, [read]
    leaves the frame entries of the reader faithful to the files. *)
Lemma read_cache_ok (self : TiffSequenceReader) (slice : pyval) (c : cache) :
  cache_ok self c -> cache_ok self (snd (read self slice c)).
Proof.
  intros Hok.
  assert (Hframe : forall i, cache_ok self (snd (cached_frame self i c)))
    by (intros i; now apply cached_frame_spec).
  assert (Htail : forall (m : M ndarray) rest,
             cache_ok self (snd (m c)) ->
             cache_ok self
               (snd ((arr <~ m ;;
                      arr' <~ lift (np_getitem arr (PTuple rest)) ;;
                      ret (Some arr')) c))).
  { intros m rest Hm. unfold mbind, lift.
    destruct (m c) as [[a|e] c1]; cbn [snd] in Hm |- *; [|exact Hm].
    destruct (np_getitem a (PTuple rest)); exact Hm. }
  destruct slice as [|i|start stop step|[|axis rest]|tn]; cbn [read].
  - unfold mbind.
    assert (H : cache_ok self
                  (snd (with_object_cache (_cache_key self)
                          (fun _ => _safe_asarray (_seq self) None) c))).
    { intros i v Hl. apply with_object_cache_lookup in Hl.
      destruct Hl as [Hl|[Hk _]]; [now apply Hok|].
      now apply indexed_key_not_base in Hk. }
    destruct (with_object_cache _ _ c) as [[a|e] c1]; exact H.
  - unfold mbind. specialize (Hframe i).
    destruct (cached_frame self i c) as [[a|e] c1]; exact Hframe.
  - unfold mbind.
    pose proof (read_slice_cache_ok self start stop step c Hok) as H.
    destruct (read_slice self start stop step c) as [[a|e] c1]; exact H.
  - exact Hok.
  - destruct axis as [|i|start stop step|items|tn];
      try (apply Htail; exact Hok).
    + apply Htail. apply Hframe.
    + apply Htail. now apply read_slice_cache_ok.
  - exact Hok.
Qed.

(** *** Frames stay in a cache that can hold them *)

Lemma lookup_head k v es : lookup k ((k, v) :: es) = Some v.
Proof.
  unfold lookup. cbn [find fst].
  now rewrite (proj2 (key_eqb_eq k k) eq_refl).
Qed.

Lemma lookup_tail k k' v es :
  k' <> k -> lookup k' ((k, v) :: es) = lookup k' es.
Proof.
  intros Hne. unfold lookup. cbn [find fst].
  now rewrite (key_eqb_neq k' k Hne).
Qed.

Lemma affine_seq_nodup (a s : Z) (n : nat) :
  s <> 0 ->
  forall k0, NoDup (map (fun k => a + s * Z.of_nat k) (seq k0 n)).
Proof.
  intros Hs. induction n as [|n IH]; intros k0; cbn [seq map];
    constructor; [|apply IH].
  intros Hin. apply in_map_iff in Hin. destruct Hin as [k [E Hk]].
  apply in_seq in Hk.
  assert (E' : s * (Z.of_nat k - Z.of_nat k0) = 0) by lia.
  apply Z.mul_eq_0 in E'. lia.
Qed.

(** A range yields no index twice. *)
Lemma range_nodup (start stop step : Z) (idxs : list Z) :
  range start stop step = Ok idxs -> NoDup idxs.
Proof.
  unfold range. destruct (step =? 0) eqn:E; [discriminate|].
  intros [= <-]. apply affine_seq_nodup. now apply Z.eqb_neq.
Qed.

Lemma remove_absent k (es : list (key * ndarray)) :
  Forall (fun kv => fst kv <> k) es -> remove k es = es.
Proof.
  intros H. unfold remove. apply forallb_filter_id, forallb_forall.
  intros kv Hin. rewrite Forall_forall in H.
  rewrite key_eqb_neq; [reflexivity|]. intros ->. now apply (H kv).
Qed.

Lemma remove_app k (l1 l2 : list (key * ndarray)) :
  remove k (l1 ++ l2) = remove k l1 ++ remove k l2.
Proof. unfold remove. apply filter_app. Qed.

Lemma lookup_app_absent k (l1 l2 : list (key * ndarray)) :
  Forall (fun kv => fst kv <> k) l1 -> lookup k (l1 ++ l2) = lookup k l2.
Proof.
  induction 1 as [|[k0 v0] l1 Hne _ IH]; [reflexivity|].
  cbn [app]. cbn [fst] in Hne. rewrite lookup_tail by congruence. exact IH.
Qed.

(** A call that returns puts its entry in front of the entries used most
    recently, which stay in place when the cache can hold one more. *)
Lemma with_object_cache_front k f c a c1 front rest :
  with_object_cache k f c = (Ok a, c1) ->
  entries c = front ++ rest ->
  Forall (fun kv => fst kv <> k) front ->
  (List.length front < capacity c)%nat ->
  capacity c1 = capacity c
  /\ exists rest1, entries c1 = (k, a) :: front ++ rest1.
Proof.
  unfold with_object_cache. intros Hcall Hes Hfront Hcap.
  destruct (lookup k (entries c)) as [v|] eqn:El.
  - injection Hcall as <- <-. cbn [capacity entries]. split; [reflexivity|].
    exists (remove k rest).
    now rewrite Hes, remove_app, (remove_absent k front Hfront).
  - destruct (f tt) as [v|e]; [|discriminate].
    injection Hcall as <- <-. cbn [capacity entries]. split; [reflexivity|].
    destruct (capacity c) as [|n]; [lia|]. cbn [firstn].
    exists (firstn (n - List.length front) rest).
    rewrite Hes, firstn_app, firstn_all2 by lia. reflexivity.
Qed.

(** The key of the frame of file [i] and the entries of a list of
    frames, the last one first. *)
Definition frame_entries (self : TiffSequenceReader) (idxs : list Z)
    (frames : list ndarray) : list (key * ndarray) :=
  rev (combine (map (fun i => _cache_key self ++ [KInt i]) idxs) frames).

Lemma for_each_cached_frame_front (self : TiffSequenceReader)
    (idxs : list Z) :
  forall c front rest frames c',
    NoDup idxs ->
    entries c = front ++ rest ->
    (forall i, In i idxs ->
               Forall (fun kv => fst kv <> _cache_key self ++ [KInt i]) front) ->
    (List.length front + List.length idxs <= capacity c)%nat ->
    for_each (cached_frame self) idxs c = (Ok frames, c') ->
    List.length frames = List.length idxs
    /\ exists rest',
         entries c' = frame_entries self idxs frames ++ front ++ rest'.
Proof.
  induction idxs as [|i idxs IH];
    intros c front rest frames c' Hnd Hes Hfront Hcap.
  - cbn [for_each ret]. intros [= <- <-]. split; [reflexivity|].
    exists rest. exact Hes.
  - cbn [for_each]. unfold mbind, cached_frame at 1.
    cbn [List.length] in Hcap. inversion Hnd as [|? ? Hni Hnd']; subst.
    destruct (with_object_cache (_cache_key self ++ [KInt i]) _ c)
      as [[a|e] c1] eqn:Ecall; [|discriminate].
    destruct (with_object_cache_front _ _ c a c1 front rest Ecall Hes
                (Hfront i (or_introl eq_refl)) ltac:(lia))
      as [Hcap1 [rest1 Hes1]].
    destruct (for_each (cached_frame self) idxs c1) as [[l|e] c2] eqn:Ef;
      [|discriminate].
    cbn [ret]. intros [= <- <-].
    destruct (IH c1 ((_cache_key self ++ [KInt i], a) :: front) rest1 l c2
                Hnd' Hes1) as [Hlen [rest' Hes2]].
    + intros j Hj. constructor; [|apply Hfront; now right].
      cbn [fst]. intros Hk. apply indexed_key_inj in Hk. congruence.
    + cbn [List.length]. lia.
    + exact Ef.
    + split; [cbn [List.length]; congruence|]. exists rest'.
      rewrite Hes2. unfold frame_entries. cbn [map combine rev].
      rewrite <- !app_assoc. reflexivity.
Qed.

Lemma lookup_frame_entries (self : TiffSequenceReader) (idxs : list Z) :
  forall frames tail,
    NoDup idxs -> List.length frames = List.length idxs ->
    Forall2 (fun i f => lookup (_cache_key self ++ [KInt i])
                          (frame_entries self idxs frames ++ tail)
                        = Some f) idxs frames.
Proof.
  induction idxs as [|i idxs IH]; intros [|f frames] tail Hnd Hlen;
    try discriminate; [constructor|].
  inversion Hnd as [|? ? Hni Hnd']; subst. injection Hlen as Hlen.
  unfold frame_entries. cbn [map combine rev]. rewrite <- app_assoc.
  fold (frame_entries self idxs frames). cbn [app]. constructor.
  - rewrite lookup_app_absent; [apply lookup_head|].
    unfold frame_entries. apply Forall_rev, Forall_forall.
    intros [k v] Hin. apply in_combine_l in Hin. apply in_map_iff in Hin.
    destruct Hin as [j [<- Hj]]. cbn [fst]. intros Hk.
    apply indexed_key_inj in Hk. congruence.
  - now apply IH.
Qed.

(** When the cache can hold as many entries as the list has indices, and
    no index comes twice, the list comprehension leaves every frame it
    returns in the cache under the key of its index, whatever the cache
    held before. *)
Lemma for_each_cached_frame_stored (self : TiffSequenceReader)
    (idxs : list Z) (c : cache) (frames : list ndarray) (c' : cache) :
  NoDup idxs ->
  (List.length idxs <= capacity c)%nat ->
  for_each (cached_frame self) idxs c = (Ok frames, c') ->
  Forall2 (fun i f => lookup (_cache_key self ++ [KInt i]) (entries c')
                      = Some f) idxs frames.
Proof.
  intros Hnd Hcap Hf.
  destruct (for_each_cached_frame_front self idxs c [] (entries c) frames c'
              Hnd eq_refl (fun _ _ => Forall_nil _) Hcap Hf)
    as [Hlen [rest' Hes]].
  rewrite Hes. cbn [app]. now apply lookup_frame_entries.
Qed.

(** *** The claims about [read], [read_block] and [macrostructure] *)

(** C2 (amended): a range read goes through the cache once for each index
    of its range and for nothing else. Whatever it returns or raises, every
    entry it leaves in the cache was there before or is the frame of a file,
    under the key of the reader extended with the index of that file, and
    that index is one the range yields; the stacked array is stored
    nowhere. When the read returns and the cache can hold as many entries
    as the range has indices, every index of the range has its frame in the
    cache under the key extended with that index, each such frame being the
    entry that was there before or the decoded file, and the array returned
    is the stack of exactly these entries. A whole-array read goes through
    the cache as one call under the key of the reader itself, so the only
    entry it can add is the aggregate array under that key, and it does add
    it on a miss when the cache has room. *)
Theorem read_cache_entries (self : TiffSequenceReader) (c : cache) :
  (forall start stop step k v,
      In (k, v) (entries (snd (read self (PSlice start stop step) c))) ->
      In (k, v) (entries c)
      \/ exists i, k = _cache_key self ++ [KInt i] /\ frame_at self i = Ok v)
  /\ (forall start stop step idxs,
         range (match start with None => 0 | Some s => s end) stop
               (match step with None => 1 | Some s => s end) = Ok idxs ->
         (forall k v,
             In (k, v)
                (entries (snd (read self (PSlice start (Some stop) step) c))) ->
             In (k, v) (entries c)
             \/ exists i, In i idxs /\ k = _cache_key self ++ [KInt i]
                          /\ frame_at self i = Ok v)
         /\ (forall arr c',
                read self (PSlice start (Some stop) step) c
                = (Ok (Some arr), c') ->
                (List.length idxs <= capacity c)%nat ->
                exists frames,
                  Forall2
                    (fun i f =>
                       lookup (_cache_key self ++ [KInt i]) (entries c')
                       = Some f
                       /\ (In (_cache_key self ++ [KInt i], f) (entries c)
                           \/ frame_at self i = Ok f))
                    idxs frames
                  /\ stack frames = Ok arr))
  /\ (forall k v,
         In (k, v) (entries (snd (read self PNone c))) ->
         In (k, v) (entries c)
         \/ (k = _cache_key self /\ asarray_all (files (_seq self)) = Ok v))
  /\ (forall whole,
         lookup (_cache_key self) (entries c) = None ->
         asarray_all (files (_seq self)) = Ok whole ->
         (0 < capacity c)%nat ->
         read self PNone c
         = (Ok (Some whole),
            {| capacity := capacity c;
               entries := firstn (capacity c)
                            ((_cache_key self, whole) :: entries c) |})
         /\ In (_cache_key self, whole) (entries (snd (read self PNone c)))).
Proof.
  split; [|split; [|split]].
  - intros start stop step k v. cbn [read]. unfold mbind.
    pose proof (read_slice_entries self start stop step c k v) as H.
    destruct (read_slice self start stop step c) as [[a|e] c1];
      cbn [snd ret] in *; exact H.
  - intros start stop step idxs Hrange.
    assert (Hread : read self (PSlice start (Some stop) step) c
                    = match for_each (cached_frame self) idxs c with
                      | (Ok frames, c1) =>
                          match stack frames with
                          | Ok arr => (Ok (Some arr), c1)
                          | Raise e => (Raise e, c1)
                          end
                      | (Raise e, c1) => (Raise e, c1)
                      end).
    { cbn [read]. unfold read_slice, mbind, lift. rewrite Hrange.
      destruct (for_each (cached_frame self) idxs c) as [[l|e] c1];
        [|reflexivity].
      destruct (stack l); reflexivity. }
    assert (Hsnd : snd (read self (PSlice start (Some stop) step) c)
                   = snd (for_each (cached_frame self) idxs c)).
    { rewrite Hread.
      destruct (for_each (cached_frame self) idxs c) as [[l|e] c1];
        [|reflexivity].
      destruct (stack l); reflexivity. }
    split.
    + intros k v. rewrite Hsnd. apply for_each_cached_frame_entries.
    + intros arr c' Hret Hroom. rewrite Hread in Hret.
      destruct (for_each (cached_frame self) idxs c) as [[frames|e] c1] eqn:Ef;
        [|discriminate].
      destruct (stack frames) as [a|e] eqn:Es; [|discriminate].
      injection Hret as -> ->. exists frames. split; [|exact Es].
      pose proof (for_each_cached_frame_stored self idxs c frames c'
                    (range_nodup _ _ _ idxs Hrange) Hroom Ef) as Hall.
      assert (Hin : forall i f,
                 lookup (_cache_key self ++ [KInt i]) (entries c') = Some f ->
                 In (_cache_key self ++ [KInt i], f) (entries c)
                 \/ frame_at self i = Ok f).
      { intros i f Hl. apply lookup_In in Hl.
        pose proof (for_each_cached_frame_entries self idxs c
                      (_cache_key self ++ [KInt i]) f) as H.
        rewrite Ef in H. cbn [snd] in H.
        destruct (H Hl) as [Hold|[j [_ [Hk Hf]]]]; [now left|].
        apply indexed_key_inj in Hk. subst j. now right. }
      eapply Forall2_impl; [|exact Hall]. cbv beta.
      intros i f Hf. split; [exact Hf|]. now apply Hin.
  - intros k v. cbn [read]. unfold mbind.
    pose proof (with_object_cache_entries (_cache_key self)
                  (fun _ => _safe_asarray (_seq self) None) c k v) as H.
    destruct (with_object_cache _ _ c) as [[a|e] c1]; cbn [snd ret] in *;
      rewrite _safe_asarray_load in H; exact H.
  - intros whole Hmiss Hall Hcap.
    assert (E : read self PNone c
                = (Ok (Some whole),
                   {| capacity := capacity c;
                      entries := firstn (capacity c)
                                   ((_cache_key self, whole) :: entries c) |})).
    { cbn [read]. unfold mbind, with_object_cache. rewrite Hmiss.
      rewrite _safe_asarray_load. cbn [load]. rewrite Hall. reflexivity. }
    split; [exact E|]. rewrite E. cbn [snd entries].
    destruct (capacity c) as [|n]; [lia|]. now left.
Qed.

(** C3: a block whose first index is not below the number of files, or
    whose second or third index is not zero, makes [read_block] raise
    [IndexError]; nothing is returned and nothing is stored. *)
Theorem read_block_out_of_range (self : TiffSequenceReader) (c : cache)
    (b0 b1 b2 : Z) (slice : pyval) :
  cache_ok self c ->
  Z.of_nat (List.length (files (_seq self))) <= b0 \/ b1 <> 0 \/ b2 <> 0 ->
  read_block self [b0; b1; b2] slice c = (Raise IndexError, c).
Proof.
  intros Hok Hout. unfold read_block. cbn [tl ints_eqb].
  destruct (b1 =? 0) eqn:E1; [|reflexivity].
  destruct (b2 =? 0) eqn:E2; [|reflexivity].
  apply Z.eqb_eq in E1, E2. destruct Hout as [Hb0|[?|?]]; try contradiction.
  cbn [andb negb]. unfold mbind at 1. cbn [lift getitem].
  assert (Hload : load (_seq self) (Some b0) = Raise IndexError).
  { cbn [load]. unfold getitem.
    destruct (b0 <? 0) eqn:Eneg; [apply Z.ltb_lt in Eneg; lia|].
    destruct ((0 <=? b0) && (b0 <? Z.of_nat (List.length (files (_seq self)))))
      eqn:Ein; [|reflexivity].
    apply andb_true_iff in Ein. destruct Ein as [_ Ein].
    apply Z.ltb_lt in Ein. lia. }
  assert (Hframe : cached_frame self b0 c = (Raise IndexError, c)).
  { unfold cached_frame, with_object_cache.
    destruct (lookup _ (entries c)) as [v|] eqn:El.
    - apply Hok in El. congruence.
    - rewrite _safe_asarray_load, Hload. reflexivity. }
  unfold mbind. cbn [read]. unfold mbind, read_slice, mbind, lift.
  change (getitem [b0; b1; b2] 0) with (Ok b0). cbv iota.
  rewrite range_single. cbn [for_each]. unfold mbind. rewrite Hframe.
  reflexivity.
Qed.

(** What [chunks[axis][k]] is in a macrostructure. *)
Definition chunk_size (ms : ArrayMacroStructure) (axis k : Z) : result Z :=
  sizes <- getitem (ms_chunks ms) axis ;; getitem sizes k.

Lemma getitem_repeat_one (n : nat) (k : Z) :
  0 <= k < Z.of_nat n -> getitem (repeat 1 n) k = Ok 1.
Proof.
  intros Hk. unfold getitem. rewrite repeat_length.
  destruct (k <? 0) eqn:E; [apply Z.ltb_lt in E; lia|].
  rewrite (proj2 (Z.leb_le 0 k)) by lia.
  rewrite (proj2 (Z.ltb_lt k (Z.of_nat n))) by lia. cbn [andb].
  rewrite nth_error_repeat by lia. reflexivity.
Qed.

Lemma macrostructure_2d (self : TiffSequenceReader) (c : cache)
    (first : ndarray) (h w : Z) :
  cache_ok self c ->
  frame_at self 0 = Ok first -> shape first = [h; w] ->
  fst (macrostructure self c)
  = Ok {| ms_shape := [Z.of_nat (List.length (files (_seq self))); h; w];
          ms_chunks := [repeat 1 (List.length (files (_seq self)));
                        [h]; [w]] |}.
Proof.
  intros Hok Hf Hs. unfold macrostructure, mbind. cbn [read]. unfold mbind.
  destruct (cached_frame_spec self 0 c Hok) as [Hr _].
  change (load (_seq self) (Some 0)) with (frame_at self 0) in Hr.
  rewrite Hf in Hr.
  destruct (cached_frame self 0 c) as [[a|e] c1]; cbn [fst] in Hr;
    [|discriminate].
  injection Hr as ->. cbn [ret]. rewrite Hs. cbn. rewrite Nat2Z.id.
  reflexivity.
Qed.

(** C4 (amended): for a block [(b0, 0, 0)] with [b0] from 0 to below the
    number of files and no sub-selector, when file 0 and file [b0] decode to
    arrays of one two-dimensional shape [(h, w)], [read_block] returns what
    [read] returns on the slice from [b0] to [b0 + 1]: the frame of file
    [b0] under one more leading axis, of shape [(1, h, w)], which is the
    chunk size the macrostructure gives for that block on each axis. *)
Theorem read_block_in_range (self : TiffSequenceReader) (c : cache)
    (b0 h w : Z) (first frame : ndarray) :
  cache_ok self c ->
  0 <= b0 < Z.of_nat (List.length (files (_seq self))) ->
  frame_at self 0 = Ok first -> shape first = [h; w] ->
  frame_at self b0 = Ok frame -> shape frame = [h; w] ->
  exists arr ms,
    read_block self [b0; 0; 0] PNone c
    = read self (PSlice (Some b0) (Some (b0 + 1)) None) c
    /\ fst (read_block self [b0; 0; 0] PNone c) = Ok (Some arr)
    /\ data arr = data frame
    /\ shape arr = [1; h; w]
    /\ fst (macrostructure self c) = Ok ms
    /\ chunk_size ms 0 b0 = Ok 1
    /\ chunk_size ms 1 0 = Ok h
    /\ chunk_size ms 2 0 = Ok w.
Proof.
  intros Hok Hb Hfirst Hs0 Hframe Hs.
  assert (Eread : read_block self [b0; 0; 0] PNone c
                  = read self (PSlice (Some b0) (Some (b0 + 1)) None) c).
  { unfold read_block. cbn [tl]. change (ints_eqb [0; 0] [0; 0]) with true.
    cbn [negb]. unfold mbind at 1. unfold lift.
    change (getitem [b0; 0; 0] 0) with (Ok b0). cbv iota.
    unfold mbind.
    destruct (read self (PSlice (Some b0) (Some (b0 + 1)) None) c)
      as [[a|e] c1]; reflexivity. }
  assert (Eslice : fst (read_slice self (Some b0) (Some (b0 + 1)) None c)
                   = Ok {| shape := [1; h; w]; data := data frame |}).
  { rewrite read_slice_spec by assumption. rewrite range_single. cbn [bind].
    rewrite (decode_all_frames self [b0] [frame]) by (repeat constructor; assumption).
    cbn [bind]. rewrite (stack_same_shape [frame] [h; w]);
      [|discriminate|repeat constructor; assumption].
    cbn [List.length map List.concat]. rewrite app_nil_r. reflexivity. }
  exists {| shape := [1; h; w]; data := data frame |}.
  exists {| ms_shape := [Z.of_nat (List.length (files (_seq self))); h; w];
            ms_chunks := [repeat 1 (List.length (files (_seq self)));
                          [h]; [w]] |}.
  split; [exact Eread|]. split.
  { rewrite Eread. cbn [read]. unfold mbind.
    destruct (read_slice self (Some b0) (Some (b0 + 1)) None c)
      as [[a|e] c1]; cbn [fst] in Eslice; [|discriminate].
    injection Eslice as ->. reflexivity. }
  split; [reflexivity|]. split; [reflexivity|]. split.
  { now apply macrostructure_2d with (first := first). }
  split; [|split; reflexivity].
  unfold chunk_size. cbn [ms_chunks].
  change (getitem [repeat 1 (List.length (files (_seq self))); [h]; [w]] 0)
    with (Ok (repeat 1 (List.length (files (_seq self))))).
  cbn [bind]. now apply getitem_repeat_one.
Qed.

(** C6 (amended): with an integer [i] whose file decodes, [read] returns
    the decoded content of the file at position [i] of the sorted list, as
    it is, with no axis for the files. With a slice of the first axis,
    [start] read as 0 and [step] as 1 when they are [None]: when
    [range(start, stop, step)] yields at least one index and the files at
    its indices decode to arrays of one shape, [read] returns these frames
    stacked along a new first axis in the order in which the range yields
    them, which is ascending whenever the step is positive; when the range
    yields no index, [read] raises [ValueError] and leaves the cache as it
    was. *)
Theorem read_index_and_range (self : TiffSequenceReader) (c : cache) :
  cache_ok self c ->
  (forall i frame,
      frame_at self i = Ok frame ->
      fst (read self (PInt i) c) = Ok (Some frame))
  /\ (forall start stop step idxs frames sh,
         range (match start with None => 0 | Some s => s end) stop
               (match step with None => 1 | Some s => s end) = Ok idxs ->
         idxs <> [] ->
         Forall2 (fun i f => frame_at self i = Ok f /\ shape f = sh)
                 idxs frames ->
         fst (read self (PSlice start (Some stop) step) c)
         = Ok (Some {| shape := Z.of_nat (List.length idxs) :: sh;
                       data := List.concat (map data frames) |})
         /\ (0 < match step with None => 1 | Some s => s end ->
             StronglySorted Z.lt idxs))
  /\ (forall start stop step,
         range (match start with None => 0 | Some s => s end) stop
               (match step with None => 1 | Some s => s end) = Ok [] ->
         read self (PSlice start (Some stop) step) c = (Raise ValueError, c)).
Proof.
  intros Hok. split; [|split].
  - intros i frame Hf. cbn [read]. unfold mbind.
    destruct (cached_frame_spec self i c Hok) as [Hr _].
    change (load (_seq self) (Some i)) with (frame_at self i) in Hr.
    rewrite Hf in Hr.
    destruct (cached_frame self i c) as [[a|e] c1]; cbn [fst] in Hr;
      [|discriminate].
    injection Hr as ->. reflexivity.
  - intros start stop step idxs frames sh Hrange Hne Hall.
    split; [|intros Hstep; eapply range_ascending; eassumption].
    assert (Hdec : Forall2 (fun i f => frame_at self i = Ok f) idxs frames).
    { eapply Forall2_impl; [|exact Hall]. cbv beta. tauto. }
    assert (Hsh : Forall (fun f => shape f = sh) frames).
    { clear -Hall. induction Hall as [|i f idxs frames [_ Hf] _ IH];
        constructor; assumption. }
    assert (Hlen : List.length idxs = List.length frames)
      by (eapply Forall2_length; eassumption).
    assert (Hfne : frames <> []).
    { intros ->. destruct idxs; [congruence|discriminate]. }
    pose proof (read_slice_spec self start stop step c Hok) as Hspec.
    rewrite Hrange in Hspec. cbn [bind] in Hspec.
    rewrite (decode_all_frames self idxs frames Hdec) in Hspec.
    cbn [bind] in Hspec.
    rewrite (stack_same_shape frames sh Hfne Hsh) in Hspec.
    cbn [read]. unfold mbind.
    destruct (read_slice self start (Some stop) step c) as [[a|e] c1];
      cbn [fst] in Hspec; [|discriminate].
    injection Hspec as ->. rewrite Hlen. reflexivity.
  - intros start stop step Hrange. cbn [read].
    unfold read_slice, mbind, lift. rewrite Hrange. reflexivity.
Qed.

(** C7 (as the code behaves): a selector that is neither [None], an
    [int], a [tuple] nor a [slice] matches none of the tests of [read]; the
    call falls off the end of the function and returns [None], with no
    error and with the cache untouched. *)
Theorem read_unhandled_selector (self : TiffSequenceReader)
    (type_name : string) (c : cache) :
  read self (PObject type_name) c = (Ok None, c).
Proof. reflexivity. Qed.

(** C9 (amended): when file 0 decodes to an array of two axes, a height
    and a width, [macrostructure] returns the shape
    [(file_count, height, width)] with the chunks
    [((1,) * file_count, (height,), (width,))], and on every axis the chunk
    sizes add up to the extent of the shape. *)
Theorem macrostructure_chunks_sum (self : TiffSequenceReader) (c : cache)
    (first : ndarray) (h w : Z) :
  cache_ok self c ->
  frame_at self 0 = Ok first -> shape first = [h; w] ->
  exists ms,
    fst (macrostructure self c) = Ok ms
    /\ ms_shape ms = [Z.of_nat (List.length (files (_seq self))); h; w]
    /\ ms_chunks ms
       = [repeat 1 (List.length (files (_seq self))); [h]; [w]]
    /\ map (fun sizes => fold_right Z.add 0 sizes) (ms_chunks ms)
       = ms_shape ms.
Proof.
  intros Hok Hf Hs. eexists. split.
  { eapply macrostructure_2d; eassumption. }
  cbn [ms_shape ms_chunks]. split; [reflexivity|]. split; [reflexivity|].
  cbn [map fold_right]. f_equal; [|f_equal; [lia|f_equal; lia]].
  induction (List.length (files (_seq self))) as [|n IH]; [reflexivity|].
  cbn [repeat fold_right]. rewrite IH. lia.
Qed.

End ReaderFacts.

(** * The block parameter of the router *)

Module RouterFacts.
Import Router.

Definition is_digit (c : ascii) : bool :=
  ((48 <=? nat_of_ascii c) && (nat_of_ascii c <=? 57))%nat.

Definition digit_value (c : ascii) : Z := Z.of_nat (nat_of_ascii c) - 48.

Definition comma : ascii := ","%char.

(** The text of [,d] for each [d] of the list. *)
Definition comma_digits (ds : list ascii) : list ascii :=
  flat_map (fun d => [comma; d]) ds.

Definition comma_digit : regex := Cat (Chr ",") (Range "0" "9").

Lemma comma_digit_ends fuel pos s p s' :
  In (p, s') (ends comma_digit fuel pos s) ->
  exists d, is_digit d = true /\ s = comma :: d :: s' /\ p = S (S pos).
Proof.
  unfold comma_digit. cbn [ends].
  destruct s as [|c s1]; [intros []|].
  destruct (Ascii.eqb "," c) eqn:Ec; [|intros []].
  apply Ascii.eqb_eq in Ec. subst c. cbn [flat_map fst snd].
  rewrite app_nil_r.
  destruct s1 as [|d s2]; [intros []|].
  change ((nat_of_ascii "0" <=? nat_of_ascii d)%nat
          && (nat_of_ascii d <=? nat_of_ascii "9")%nat) with (is_digit d).
  destruct (is_digit d) eqn:Ed; [|intros []].
  intros [[= <- <-]|[]]. exists d. repeat split; assumption.
Qed.

Lemma star_comma_digit_ends fuel n :
  forall pos s p s',
    In (p, s') (star_ends (ends comma_digit fuel) n pos s) ->
    exists ds, forallb is_digit ds = true /\ s = comma_digits ds ++ s'.
Proof.
  induction n as [|n IH]; intros pos s p s'; cbn [star_ends].
  - intros [[= <- <-]|[]]. now exists [].
  - intros [[= <- <-]|H]; [now exists []|].
    apply in_flat_map in H. destruct H as [[p1 s1] [Hstep Hrest]].
    cbn [fst snd] in Hrest.
    apply comma_digit_ends in Hstep. destruct Hstep as [d [Hd [-> ->]]].
    destruct (S (S pos) =? pos)%nat; [destruct Hrest|].
    apply IH in Hrest. destruct Hrest as [ds [Hds ->]].
    exists (d :: ds). cbn [forallb comma_digits flat_map app].
    rewrite Hd, Hds. split; reflexivity.
Qed.

Lemma ends_cat r1 r2 fuel pos s :
  ends (Cat r1 r2) fuel pos s
  = flat_map (fun ps => ends r2 fuel (fst ps) (snd ps)) (ends r1 fuel pos s).
Proof. reflexivity. Qed.

Lemma ends_star r fuel pos s :
  ends (Star r) fuel pos s = star_ends (ends r fuel) fuel pos s.
Proof. reflexivity. Qed.

Lemma digit_ends fuel pos s p s' :
  In (p, s') (ends (Range "0" "9") fuel pos s) ->
  exists d, is_digit d = true /\ s = d :: s'.
Proof.
  cbn [ends]. destruct s as [|d s1]; [intros []|].
  change ((nat_of_ascii "0" <=? nat_of_ascii d)%nat
          && (nat_of_ascii d <=? nat_of_ascii "9")%nat) with (is_digit d).
  destruct (is_digit d) eqn:Ed; [|intros []].
  intros [[= <- <-]|[]]. now exists d.
Qed.

Lemma eol_ends fuel pos s p s' :
  In (p, s') (ends Eol fuel pos s) -> s' = s /\ (s = [] \/ s = [newline]).
Proof.
  cbn [ends]. destruct s as [|c [|c' s2]].
  - intros [[= <- <-]|[]]. split; [reflexivity|now left].
  - destruct (Ascii.eqb c newline) eqn:Ec; [|intros []].
    apply Ascii.eqb_eq in Ec. subst c.
    intros [[= <- <-]|[]]. split; [reflexivity|now right].
  - intros [].
Qed.

(** What a text that passes the pattern looks like. *)
Lemma block_pattern_shape (raw : string) :
  re_match block_pattern raw = true ->
  exists d ds nl,
    is_digit d = true /\ forallb is_digit ds = true
    /\ (nl = [] \/ nl = [newline])
    /\ list_ascii_of_string raw = d :: comma_digits ds ++ nl.
Proof.
  unfold re_match.
  set (l := list_ascii_of_string raw). set (fuel := S (List.length l)).
  destruct (ends block_pattern fuel 0 l) as [|[p s'] rest] eqn:Ef;
    [discriminate|]. intros _.
  assert (Hin : In (p, s') (ends block_pattern fuel 0 l))
    by (rewrite Ef; now left).
  clear Ef. unfold block_pattern in Hin.
  rewrite ends_cat in Hin. apply in_flat_map in Hin.
  destruct Hin as [[p0 s0] [H0 Hin]]. cbn [ends Nat.eqb] in H0.
  destruct H0 as [[= <- <-]|[]]. cbn [fst snd] in Hin.
  rewrite ends_cat in Hin. apply in_flat_map in Hin.
  destruct Hin as [[p1 s1] [H1 Hin]]. cbn [fst snd] in Hin.
  apply digit_ends in H1. destruct H1 as [d [Hd Hl]].
  rewrite ends_cat in Hin. apply in_flat_map in Hin.
  destruct Hin as [[p2 s2] [H2 Hin]]. cbn [fst snd] in Hin.
  rewrite ends_star in H2. fold comma_digit in H2.
  apply star_comma_digit_ends in H2. destruct H2 as [ds [Hds Hs1]].
  apply eol_ends in Hin. destruct Hin as [_ Hnl].
  exists d, ds, s2. repeat split; try assumption. congruence.
Qed.

(** The pieces [split] cuts such a text into. *)
Fixpoint pieces (d : ascii) (ds nl : list ascii) : list string :=
  match ds with
  | [] => [String d (string_of_list_ascii nl)]
  | x :: ds' => String d EmptyString :: pieces x ds' nl
  end.

Lemma digit_facts (d : ascii) :
  is_digit d = true ->
  Ascii.eqb d comma = false
  /\ int (String d EmptyString) = Ok (digit_value d)
  /\ int (String d (String newline EmptyString)) = Ok (digit_value d)
  /\ 0 <= digit_value d <= 9.
Proof.
  destruct d as [[] [] [] [] [] [] [] []]; intros H; try discriminate H;
    (split; [reflexivity|split; [reflexivity|split; [reflexivity|]]]);
    cbv; split; discriminate.
Qed.

Lemma split_block_text (ds : list ascii) :
  forall d nl,
    is_digit d = true -> forallb is_digit ds = true ->
    nl = [] \/ nl = [newline] ->
    split comma (string_of_list_ascii (d :: comma_digits ds ++ nl))
    = pieces d ds nl.
Proof.
  induction ds as [|x ds IH]; intros d nl Hd Hds Hnl.
  - cbn [comma_digits flat_map app string_of_list_ascii split pieces].
    rewrite (proj1 (digit_facts d Hd)).
    destruct Hnl as [->| ->]; reflexivity.
  - cbn [forallb] in Hds. apply andb_true_iff in Hds. destruct Hds as [Hx Hds].
    cbn [comma_digits flat_map app string_of_list_ascii split pieces].
    rewrite (proj1 (digit_facts d Hd)).
    change (Ascii.eqb comma comma) with true. cbv iota.
    specialize (IH x nl Hx Hds Hnl).
    cbn [string_of_list_ascii] in IH. unfold comma_digits in IH.
    f_equal. exact IH.
Qed.

Lemma int_pieces (ds : list ascii) :
  forall d nl,
    is_digit d = true -> forallb is_digit ds = true ->
    nl = [] \/ nl = [newline] ->
    map_result int (pieces d ds nl) = Ok (map digit_value (d :: ds)).
Proof.
  induction ds as [|x ds IH]; intros d nl Hd Hds Hnl.
  - destruct (digit_facts d Hd) as [_ [H1 [H2 _]]].
    cbn [pieces map_result map].
    destruct Hnl as [->| ->]; cbn [string_of_list_ascii];
      [rewrite H1|rewrite H2]; reflexivity.
  - cbn [forallb] in Hds. apply andb_true_iff in Hds. destruct Hds as [Hx Hds].
    destruct (digit_facts d Hd) as [_ [H1 _]].
    cbn [pieces map_result]. rewrite H1. cbn [bind].
    rewrite (IH x nl Hx Hds Hnl). reflexivity.
Qed.

Lemma digit_values_in_range (ds : list ascii) :
  forallb is_digit ds = true ->
  Forall (fun x => 0 <= x <= 9) (map digit_value ds).
Proof.
  induction ds as [|d ds IH]; cbn [forallb map]; intros H; constructor.
  - apply andb_true_iff in H. now apply digit_facts.
  - apply andb_true_iff in H. now apply IH.
Qed.

End RouterFacts.

(** C10: a [block] parameter that passes the validation of the query
    (at least one character and the pattern [^[0-9](,[0-9])*$]) is parsed
    without error into a tuple whose components all lie from 0 to 9; a
    parameter that does not pass never reaches the parser. So no block with
    a component above 9 can be asked for through the blob routes. *)
Theorem block_components_single_digit (raw : string) :
  Router.block_query_valid raw = true ->
  exists comps,
    Router.block_dependency raw = Some (Ok comps)
    /\ Forall (fun x => 0 <= x <= 9) comps.
Proof.
  intros Hvalid. unfold Router.block_dependency. rewrite Hvalid.
  unfold Router.block_query_valid in Hvalid.
  apply andb_true_iff in Hvalid. destruct Hvalid as [_ Hmatch].
  apply RouterFacts.block_pattern_shape in Hmatch.
  destruct Hmatch as [d [ds [nl [Hd [Hds [Hnl Hraw]]]]]].
  exists (map RouterFacts.digit_value (d :: ds)). split.
  - unfold Router.block. f_equal.
    rewrite <- (string_of_list_ascii_of_string raw), Hraw.
    pose proof (RouterFacts.split_block_text ds d nl Hd Hds Hnl) as Hsplit.
    unfold RouterFacts.comma in Hsplit. rewrite Hsplit.
    now apply RouterFacts.int_pieces.
  - apply RouterFacts.digit_values_in_range. cbn [forallb].
    now rewrite Hd, Hds.
Qed.

Lemma block_components_single_digit_witness :
  exists comps,
    Router.block_dependency "7,0,9" = Some (Ok comps)
    /\ Forall (fun x => 0 <= x <= 9) comps.
Proof.
  apply (block_components_single_digit "7,0,9"). reflexivity.
Defined.

(** * Cache keys and the fingerprint of the file list *)

Module KeyFacts.
Import Hashlib.


Definition word_ok (x : Z) : Prop := 0 <= x < 4294967296.

Definition state_ok (st : state) : Prop :=
  let '(a, b, c, d) := st in word_ok a /\ word_ok b /\ word_ok c /\ word_ok d.

Lemma w32_ok (x : Z) : word_ok (w32 x).
Proof. unfold word_ok, w32. apply Z.mod_pos_bound. lia. Qed.

Lemma compress_ok (st : state) (block : list Z) : state_ok (compress st block).
Proof.
  destruct st as [[[a0 b0] c0] d0]. unfold compress.
  destruct (fold_left (round block) (seq 0 64) (a0, b0, c0, d0))
    as [[[a b] c] d].
  repeat split; apply w32_ok.
Qed.

Lemma md5_ok (msg : list Z) : state_ok (md5 msg).
Proof.
  unfold md5. generalize (blocks (List.length (pad msg)) (pad msg)).
  intros l. destruct l as [|b l] using rev_ind.
  - cbv. repeat split; discriminate.
  - rewrite fold_left_app. cbn [fold_left]. apply compress_ok.
Qed.




(** *** The hexadecimal text of a digest loses nothing *)

Definition unhex_digit (c : ascii) : nat :=
  let n := nat_of_ascii c in
  if (n <? 58)%nat then (n - 48)%nat else (n - 87)%nat.

Definition unhex2 (s : string) : nat :=
  match s with
  | String a (String b _) => (16 * unhex_digit a + unhex_digit b)%nat
  | _ => 0%nat
  end.

Lemma unhex2_hex2 (n : nat) : (n < 256)%nat -> unhex2 (PyStr.hex2 n) = n.
Proof.
  intros Hn.
  assert (H : forallb (fun k => (unhex2 (PyStr.hex2 k) =? k)%nat) (seq 0 256)
              = true) by (vm_compute; reflexivity).
  rewrite forallb_forall in H. apply Nat.eqb_eq, H, in_seq. lia.
Qed.

Fixpoint hex_string (l : list Z) : string :=
  match l with
  | [] => EmptyString
  | x :: l' => (PyStr.hex2 (Z.to_nat x) ++ hex_string l')%string
  end.

Lemma concat_hex (l : list Z) :
  String.concat EmptyString (map (fun x => PyStr.hex2 (Z.to_nat x)) l)
  = hex_string l.
Proof.
  induction l as [|x l IH]; [reflexivity|].
  cbn [map String.concat hex_string]. rewrite <- IH.
  destruct l as [|y l]; [|reflexivity].
  unfold PyStr.hex2. reflexivity.
Qed.

Definition byte_ok (x : Z) : Prop := 0 <= x < 256.

Lemma hex2_shape (n : nat) :
  exists a b, PyStr.hex2 n = String a (String b EmptyString).
Proof. unfold PyStr.hex2. eauto. Qed.

Lemma hex_string_inj (l1 : list Z) :
  forall l2, Forall byte_ok l1 -> Forall byte_ok l2 ->
             hex_string l1 = hex_string l2 -> l1 = l2.
Proof.
  induction l1 as [|x l1 IH]; intros [|y l2] H1 H2; cbn [hex_string];
    try reflexivity;
    try (destruct (hex2_shape (Z.to_nat y)) as [a [b Sy]]; rewrite Sy;
         discriminate);
    try (destruct (hex2_shape (Z.to_nat x)) as [a [b Sx]]; rewrite Sx;
         discriminate).
  inversion H1 as [|? ? Hx H1']; inversion H2 as [|? ? Hy H2']; subst.
  intros E.
  assert (Ex : PyStr.hex2 (Z.to_nat x) = PyStr.hex2 (Z.to_nat y)
               /\ hex_string l1 = hex_string l2).
  { destruct (hex2_shape (Z.to_nat x)) as [a [b Sx]].
    destruct (hex2_shape (Z.to_nat y)) as [a' [b' Sy]].
    rewrite Sx, Sy in E |- *. cbn [append] in E.
    injection E as -> -> E. now split. }
  destruct Ex as [Ex El]. unfold byte_ok in Hx, Hy. f_equal.
  - apply (f_equal unhex2) in Ex.
    rewrite !unhex2_hex2 in Ex by lia. lia.
  - now apply IH.
Qed.

Lemma le_bytes_ok (k : nat) (x : Z) : Forall byte_ok (le_bytes k x).
Proof.
  unfold le_bytes. apply Forall_forall. intros b Hb.
  apply in_map_iff in Hb. destruct Hb as [i [<- _]].
  unfold byte_ok. apply Z.mod_pos_bound. lia.
Qed.

Lemma le_bytes_word_inj (x y : Z) :
  word_ok x -> word_ok y -> le_bytes 4 x = le_bytes 4 y -> x = y.
Proof.
  unfold word_ok, le_bytes. cbn [seq map].
  change (256 ^ Z.of_nat 0) with 1. change (256 ^ Z.of_nat 1) with 256.
  change (256 ^ Z.of_nat 2) with 65536.
  change (256 ^ Z.of_nat 3) with 16777216.
  intros Hx Hy [= H0 H1 H2 H3].
  Z.to_euclidean_division_equations. lia.
Qed.

Lemma hexdigest_inj (s t : state) :
  state_ok s -> state_ok t -> hexdigest s = hexdigest t -> s = t.
Proof.
  destruct s as [[[a b] c] d], t as [[[a' b'] c'] d'].
  unfold state_ok, hexdigest. intros [Ha [Hb [Hc Hd]]] [Ha' [Hb' [Hc' Hd']]].
  rewrite !concat_hex. intros E. apply hex_string_inj in E.
  - assert (L : forall x, List.length (le_bytes 4 x) = 4%nat)
      by reflexivity.
    cbn [app] in E.
    assert (E4 : forall x y u v : list Z,
               List.length x = List.length y -> x ++ u = y ++ v ->
               x = y /\ u = v).
    { intros x. induction x as [|p x IHx]; intros [|q y] u v Hl; cbn [app];
        try discriminate; [now split|].
      intros [= -> Hr]. injection Hl as Hl.
      destruct (IHx y u v Hl Hr) as [-> ->]. now split. }
    apply E4 in E; [|now rewrite !L]. destruct E as [Ea E].
    apply E4 in E; [|now rewrite !L]. destruct E as [Eb E].
    apply E4 in E; [|now rewrite !L]. destruct E as [Ec Ed].
    apply le_bytes_word_inj in Ea, Eb, Ec, Ed; try assumption.
    congruence.
  - repeat (apply Forall_app; split); apply le_bytes_ok.
  - repeat (apply Forall_app; split); apply le_bytes_ok.
Qed.



(** *** The text that is hashed determines the file list *)

(** One code point read back from UTF-8. *)
Definition decode_char (l : list Z) : option (ascii * list Z) :=
  match l with
  | [] => None
  | b :: l' =>
      if b <? 128 then Some (ascii_of_nat (Z.to_nat b), l')
      else match l' with
           | b' :: l'' =>
               Some (ascii_of_nat (Z.to_nat ((b - 192) * 64 + (b' - 128))),
                     l'')
           | [] => None
           end
  end.

Lemma decode_encode_char (c : ascii) (l : list Z) :
  decode_char (PyStr.encode_char c ++ l) = Some (c, l).
Proof. destruct c as [[] [] [] [] [] [] [] []]; reflexivity. Qed.

Lemma encode_inj (s1 : string) :
  forall s2, PyStr.encode s1 = PyStr.encode s2 -> s1 = s2.
Proof.
  induction s1 as [|c1 s1 IH]; intros [|c2 s2]; cbn [PyStr.encode];
    intros E; try reflexivity.
  - apply (f_equal decode_char) in E.
    rewrite decode_encode_char in E. discriminate.
  - apply (f_equal decode_char) in E.
    rewrite decode_encode_char in E. discriminate.
  - apply (f_equal decode_char) in E.
    rewrite !decode_encode_char in E. injection E as -> E.
    f_equal. now apply IH.
Qed.

Lemma append_assoc (a b c : string) :
  ((a ++ b) ++ c = a ++ (b ++ c))%string.
Proof. induction a as [|x a IH]; cbn [append]; [reflexivity|now rewrite IH]. Qed.

(** One character read back from the body of a [repr] written with the
    quote [q]; nothing is read at the closing quote. *)
Definition unrepr_char (q : ascii) (s : string) : option (ascii * string) :=
  match s with
  | EmptyString => None
  | String c s' =>
      if Ascii.eqb c q then None
      else if Ascii.eqb c PyStr.backslash then
        match s' with
        | EmptyString => None
        | String d s'' =>
            if Ascii.eqb d "t" then Some (ascii_of_nat 9, s'')
            else if Ascii.eqb d "n" then Some (ascii_of_nat 10, s'')
            else if Ascii.eqb d "r" then Some (ascii_of_nat 13, s'')
            else if Ascii.eqb d "x" then
              match s'' with
              | String h1 (String h2 s3) =>
                  Some (ascii_of_nat (16 * unhex_digit h1 + unhex_digit h2),
                        s3)
              | _ => None
              end
            else Some (d, s'')
        end
      else Some (c, s')
  end.

Definition is_quote (q : ascii) : Prop :=
  q = PyStr.apostrophe \/ q = PyStr.quotation.

Lemma repr_quote_is_quote (s : string) : is_quote (PyStr.repr_quote s).
Proof.
  unfold PyStr.repr_quote, is_quote.
  destruct (_ && _); [now right|now left].
Qed.

Lemma unrepr_repr_char (q c : ascii) (rest : string) :
  is_quote q ->
  unrepr_char q (PyStr.repr_char q c ++ rest) = Some (c, rest).
Proof.
  intros [-> | ->]; destruct c as [[] [] [] [] [] [] [] []]; reflexivity.
Qed.

Lemma unrepr_at_quote (q : ascii) (rest : string) :
  unrepr_char q (String q rest) = None.
Proof. cbn [unrepr_char]. now rewrite Ascii.eqb_refl. Qed.

Lemma repr_body_inj (q : ascii) (s1 : string) :
  is_quote q ->
  forall s2 t1 t2,
    (PyStr.repr_body q s1 ++ String q t1
     = PyStr.repr_body q s2 ++ String q t2)%string ->
    s1 = s2 /\ t1 = t2.
Proof.
  intros Hq. induction s1 as [|c1 s1 IH]; intros [|c2 s2] t1 t2;
    cbn [PyStr.repr_body append]; rewrite ?append_assoc; intros E.
  - injection E as ->. now split.
  - apply (f_equal (unrepr_char q)) in E.
    rewrite unrepr_at_quote, unrepr_repr_char in E by assumption.
    discriminate.
  - apply (f_equal (unrepr_char q)) in E.
    rewrite unrepr_at_quote, unrepr_repr_char in E by assumption.
    discriminate.
  - apply (f_equal (unrepr_char q)) in E.
    rewrite !unrepr_repr_char in E by assumption.
    injection E as -> E. apply IH in E. destruct E as [-> ->]. now split.
Qed.

Lemma repr_then (s t : string) :
  (PyStr.repr s ++ t
   = String (PyStr.repr_quote s)
       (PyStr.repr_body (PyStr.repr_quote s) s
        ++ String (PyStr.repr_quote s) t))%string.
Proof. unfold PyStr.repr. cbn [append]. now rewrite append_assoc. Qed.

Lemma repr_inj (s1 s2 t1 t2 : string) :
  (PyStr.repr s1 ++ t1 = PyStr.repr s2 ++ t2)%string -> s1 = s2 /\ t1 = t2.
Proof.
  rewrite !repr_then. intros [= Eq E]. rewrite <- Eq in E.
  apply repr_body_inj in E; [exact E|apply repr_quote_is_quote].
Qed.

(** What follows the first item in the text of a list. *)
Definition after_item (l : list string) : string :=
  match l with
  | [] => "]"
  | _ => (", " ++ String.concat ", " (map PyStr.repr l) ++ "]")%string
  end.

Lemma items_then (x : string) (l : list string) :
  (String.concat ", " (map PyStr.repr (x :: l)) ++ "]"
   = PyStr.repr x ++ after_item l)%string.
Proof.
  destruct l as [|y l]; [reflexivity|].
  cbn [map String.concat after_item]. now rewrite !append_assoc.
Qed.

Lemma repr_not_bracket (x t : string) :
  (PyStr.repr x ++ t)%string <> "]"%string.
Proof.
  rewrite repr_then. destruct (repr_quote_is_quote x) as [-> | ->];
    discriminate.
Qed.

Lemma items_inj (l1 : list string) :
  forall l2,
    (String.concat ", " (map PyStr.repr l1) ++ "]"
     = String.concat ", " (map PyStr.repr l2) ++ "]")%string ->
    l1 = l2.
Proof.
  induction l1 as [|x1 l1 IH]; intros [|x2 l2]; try reflexivity.
  - rewrite items_then. intros E. symmetry in E.
    now apply repr_not_bracket in E.
  - rewrite items_then. intros E. now apply repr_not_bracket in E.
  - rewrite !items_then. intros E. apply repr_inj in E.
    destruct E as [-> E]. f_equal.
    destruct l1 as [|y1 l1], l2 as [|y2 l2]; cbn [after_item] in E;
      try reflexivity; try discriminate.
    apply IH. cbn [append] in E. now injection E.
Qed.

Lemma str_list_inj (l1 l2 : list string) :
  PyStr.str_list l1 = PyStr.str_list l2 -> l1 = l2.
Proof.
  unfold PyStr.str_list. cbn [append]. intros [= E]. now apply items_inj.
Qed.

(** The bytes handed to [hashlib.md5]. *)
Definition message (fs : list string) : list Z :=
  PyStr.encode (PyStr.str_list fs).

Lemma message_inj (fs1 fs2 : list string) :
  message fs1 = message fs2 -> fs1 = fs2.
Proof. intros E. now apply str_list_inj, encode_inj. Qed.






End KeyFacts.





(** * A reference backend over ten files *)

Module Demo.

(** Ten frames [img001.tif] ... [img010.tif], listed in reverse. *)
Definition dir : directory :=
  {| dirpath := "/data/scan"; iterdir := rev (Dirs.frames "img" 10) |}.

Definition reader : TiffSequenceReader := sniffed_reader dir.

(** The frame stored in the file at position [k]: one row of two pixels. *)
Definition frame (k : Z) : ndarray :=
  {| shape := [1; 2]; data := [k; k + 100] |}.

Fixpoint position (path : string) (l : list string) (k : Z) : option Z :=
  match l with
  | [] => None
  | p :: l' => if String.eqb path p then Some k else position path l' (k + 1)
  end.

Definition imread (path : string) : result ndarray :=
  match position path (files (_seq reader)) 0 with
  | Some k => Ok (frame k)
  | None => Raise OSError
  end.

Definition asarray_all (fs : list string) : result ndarray :=
  frames <- map_result imread fs ;; stack frames.

(** Indexing with the empty tuple gives the array back; nothing else is
    needed here. *)
Definition np_getitem (a : ndarray) (sel : pyval) : result ndarray :=
  match sel with
  | PTuple [] => Ok a
  | _ => Raise IndexError
  end.

Definition read := read imread asarray_all false np_getitem.
Definition read_block := read_block imread asarray_all false np_getitem.
Definition macrostructure := macrostructure imread asarray_all false np_getitem.
Definition frame_at := frame_at imread.

(** All ten frames stacked. *)
Definition whole : ndarray :=
  {| shape := [10; 1; 2];
     data := [0; 100; 1; 101; 2; 102; 3; 103; 4; 104;
              5; 105; 6; 106; 7; 107; 8; 108; 9; 109] |}.

End Demo.

Example demo_is_sniffed : subdirectory_handler Demo.dir = Ok (Some Demo.reader).
Proof. vm_compute. reflexivity. Qed.

Example demo_files_sorted :
  map (fun p => Demo.position p (files (_seq Demo.reader)) 0)
      ["/data/scan/img001.tif"; "/data/scan/img006.tif";
       "/data/scan/img010.tif"]%string
  = [Some 0; Some 5; Some 9].
Proof. vm_compute. reflexivity. Qed.

Example demo_read_5 :
  fst (Demo.read Demo.reader (PInt 5) (empty 16)) = Ok (Some (Demo.frame 5)).
Proof. vm_compute. reflexivity. Qed.

Example demo_read_range_2_5 :
  fst (Demo.read Demo.reader (PSlice (Some 2) (Some 5) None) (empty 16))
  = Ok (Some {| shape := [3; 1; 2]; data := [2; 102; 3; 103; 4; 104] |}).
Proof. vm_compute. reflexivity. Qed.

Example demo_read_last :
  fst (Demo.read Demo.reader (PInt (-1)) (empty 16)) = Ok (Some (Demo.frame 9)).
Proof. vm_compute. reflexivity. Qed.

Example demo_read_empty_range :
  fst (Demo.read Demo.reader (PSlice (Some 4) (Some 4) None) (empty 16))
  = Raise ValueError.
Proof. vm_compute. reflexivity. Qed.

Example demo_read_past_the_end :
  fst (Demo.read Demo.reader (PSlice (Some 8) (Some 12) None) (empty 16))
  = Raise IndexError.
Proof. vm_compute. reflexivity. Qed.

Example demo_read_tuple_of_other :
  fst (Demo.read Demo.reader (PTuple [PNone; PInt 0]) (empty 16))
  = Raise UnboundLocalError.
Proof. vm_compute. reflexivity. Qed.

(** C2 (as stated, refuted): a whole-array read on an empty cache leaves
    exactly one entry, the aggregate of all ten frames under the key of the
    reader with no index, and no entry for any single file. *)
Lemma read_whole_array_stores_aggregate :
  Demo.read Demo.reader PNone (empty 16)
  = (Ok (Some Demo.whole),
     {| capacity := 16;
        entries := [(_cache_key Demo.reader, Demo.whole)] |})
  /\ List.length (_cache_key Demo.reader) = 3%nat.
Proof. split; vm_compute; reflexivity. Qed.

(** C6 (as stated, refuted): with a negative step the frames are stacked
    in descending index order: the slice from 2 down to 0 (excluded) gives
    file 2 and then file 1, not file 1 and then file 2. *)
Lemma read_descending_range :
  range 2 0 (-1) = Ok [2; 1]
  /\ fst (Demo.read Demo.reader (PSlice (Some 2) (Some 0) (Some (-1)))
            (empty 16))
     = Ok (Some {| shape := [2; 1; 2]; data := [2; 102; 1; 101] |})
  /\ fst (Demo.read Demo.reader (PSlice (Some 2) (Some 0) (Some (-1)))
            (empty 16))
     <> Ok (Some {| shape := [2; 1; 2]; data := [1; 101; 2; 102] |}).
Proof.
  split; [reflexivity|]. split; [vm_compute; reflexivity|].
  vm_compute. discriminate.
Qed.

(** A cache of three entries that is full: it holds the frames of the
    files 7, 8 and 9. *)
Definition full_cache : cache :=
  snd (Demo.read Demo.reader (PSlice (Some 7) (Some 10) None) (empty 3)).

Lemma read_cache_entries_witness :
  (exists frames,
      Forall2
        (fun i f =>
           lookup (_cache_key Demo.reader ++ [KInt i])
             (entries
                (snd (Demo.read Demo.reader (PSlice (Some 2) (Some 5) None)
                        full_cache)))
           = Some f
           /\ (In (_cache_key Demo.reader ++ [KInt i], f) (entries full_cache)
               \/ Demo.frame_at Demo.reader i = Ok f))
        [2; 3; 4] frames
      /\ stack frames
         = Ok {| shape := [3; 1; 2]; data := [2; 102; 3; 103; 4; 104] |})
  /\ Demo.read Demo.reader PNone (empty 16)
     = (Ok (Some Demo.whole),
        {| capacity := 16;
           entries := firstn 16 [(_cache_key Demo.reader, Demo.whole)] |})
  /\ In (_cache_key Demo.reader, Demo.whole)
        (entries (snd (Demo.read Demo.reader PNone (empty 16)))).
Proof.
  split.
  - pose proof (read_cache_entries Demo.imread Demo.asarray_all false
                  Demo.np_getitem Demo.reader full_cache)
      as [_ [Hrange _]].
    destruct (Hrange (Some 2) 5 None [2; 3; 4] eq_refl) as [_ Hstored].
    apply (Hstored
             {| shape := [3; 1; 2]; data := [2; 102; 3; 103; 4; 104] |}
             (snd (Demo.read Demo.reader (PSlice (Some 2) (Some 5) None)
                     full_cache))).
    + vm_compute. reflexivity.
    + vm_compute. apply le_n.
  - pose proof (read_cache_entries Demo.imread Demo.asarray_all false
                  Demo.np_getitem Demo.reader (empty 16))
      as [_ [_ [_ Hwhole]]].
    apply Hwhole.
    + reflexivity.
    + vm_compute. reflexivity.
    + apply le_n_S, Nat.le_0_l.
Defined.


Lemma read_block_out_of_range_witness :
  Demo.read_block Demo.reader [10; 0; 0] PNone (empty 16)
  = (Raise IndexError, empty 16)
  /\ Demo.read_block Demo.reader [3; 1; 0] PNone (empty 16)
     = (Raise IndexError, empty 16).
Proof.
  split.
  - apply (read_block_out_of_range Demo.imread Demo.asarray_all false
             Demo.np_getitem Demo.reader (empty 16) 10 0 0 PNone).
    + apply cache_ok_empty.
    + left. vm_compute. discriminate.
  - apply (read_block_out_of_range Demo.imread Demo.asarray_all false
             Demo.np_getitem Demo.reader (empty 16) 3 1 0 PNone).
    + apply cache_ok_empty.
    + right. left. discriminate.
Defined.

Lemma read_block_in_range_witness :
  exists arr ms,
    Demo.read_block Demo.reader [3; 0; 0] PNone (empty 16)
    = Demo.read Demo.reader (PSlice (Some 3) (Some (3 + 1)) None) (empty 16)
    /\ fst (Demo.read_block Demo.reader [3; 0; 0] PNone (empty 16))
       = Ok (Some arr)
    /\ data arr = data (Demo.frame 3)
    /\ shape arr = [1; 1; 2]
    /\ fst (Demo.macrostructure Demo.reader (empty 16)) = Ok ms
    /\ chunk_size ms 0 3 = Ok 1
    /\ chunk_size ms 1 0 = Ok 1
    /\ chunk_size ms 2 0 = Ok 2.
Proof.
  apply (read_block_in_range Demo.imread Demo.asarray_all false
           Demo.np_getitem Demo.reader (empty 16) 3 1 2
           (Demo.frame 0) (Demo.frame 3)).
  - apply cache_ok_empty.
  - vm_compute. split; [discriminate|reflexivity].
  - vm_compute. reflexivity.
  - reflexivity.
  - vm_compute. reflexivity.
  - reflexivity.
Defined.

Lemma read_index_and_range_witness :
  fst (Demo.read Demo.reader (PInt 5) (empty 16)) = Ok (Some (Demo.frame 5))
  /\ fst (Demo.read Demo.reader (PSlice (Some 2) (Some 5) None) (empty 16))
     = Ok (Some {| shape := [3; 1; 2];
                   data := [2; 102; 3; 103; 4; 104] |})
  /\ StronglySorted Z.lt [2; 3; 4]
  /\ Demo.read Demo.reader (PSlice (Some 4) (Some 4) None) (empty 16)
     = (Raise ValueError, empty 16).
Proof.
  destruct (read_index_and_range Demo.imread Demo.asarray_all false
              Demo.np_getitem Demo.reader (empty 16)
              (cache_ok_empty Demo.imread Demo.asarray_all Demo.reader 16))
    as [Hint [Hrange Hempty]].
  split.
  - apply Hint. vm_compute. reflexivity.
  - destruct (Hrange (Some 2) 5 None [2; 3; 4]
                [Demo.frame 2; Demo.frame 3; Demo.frame 4] [1; 2])
      as [Hread Hsorted].
    + reflexivity.
    + discriminate.
    + repeat constructor.
    + split; [exact Hread|]. split; [apply Hsorted; reflexivity|].
      apply Hempty. reflexivity.
Defined.

Lemma macrostructure_chunks_sum_witness :
  exists ms,
    fst (Demo.macrostructure Demo.reader (empty 16)) = Ok ms
    /\ ms_shape ms
       = [Z.of_nat (List.length (files (_seq Demo.reader))); 1; 2]
    /\ ms_chunks ms
       = [repeat 1 (List.length (files (_seq Demo.reader))); [1]; [2]]
    /\ map (fun sizes => fold_right Z.add 0 sizes) (ms_chunks ms)
       = ms_shape ms.
Proof.
  apply (macrostructure_chunks_sum Demo.imread Demo.asarray_all false
           Demo.np_getitem Demo.reader (empty 16) (Demo.frame 0) 1 2).
  - apply cache_ok_empty.
  - vm_compute. reflexivity.
  - reflexivity.
Defined.

(** * Further properties of the detector *)

From Stdlib Require Import Permutation.

Module SortFacts.

Definition le_str (a b : string) : Prop := String.leb a b = true.

Lemma leb_trans (a : string) :
  forall b c, String.leb a b = true -> String.leb b c = true ->
              String.leb a c = true.
Proof.
  unfold String.leb.
  induction a as [|x a IH]; intros [|y b] [|z c]; cbn [String.compare];
    try reflexivity; try discriminate.
  unfold Ascii.compare.
  destruct (N.compare_spec (N_of_ascii x) (N_of_ascii y)) as [Exy|Lxy|Gxy];
    try discriminate;
    destruct (N.compare_spec (N_of_ascii y) (N_of_ascii z)) as [Eyz|Lyz|Gyz];
    try discriminate; intros Hab Hbc.
  - rewrite Exy, Eyz, N.compare_refl. now apply IH with (b := b).
  - rewrite Exy. now rewrite (proj2 (N.compare_lt_iff _ _) Lyz).
  - rewrite <- Eyz. now rewrite (proj2 (N.compare_lt_iff _ _) Lxy).
  - assert (L : (N_of_ascii x < N_of_ascii z)%N) by lia.
    now rewrite (proj2 (N.compare_lt_iff _ _) L).
Qed.

Lemma leb_false_flip (a b : string) :
  String.leb a b = false -> String.leb b a = true.
Proof.
  intros H. destruct (String.leb_total a b) as [E|E]; congruence.
Qed.

Lemma insert_sorted_perm (x : string) (l : list string) :
  Permutation (insert_sorted x l) (x :: l).
Proof.
  induction l as [|y l IH]; cbn [insert_sorted]; [reflexivity|].
  destruct (String.leb x y); [reflexivity|].
  rewrite IH. apply perm_swap.
Qed.

Lemma sorted_perm (l : list string) : Permutation (sorted l) l.
Proof.
  induction l as [|x l IH]; cbn [sorted fold_right]; [reflexivity|].
  fold (sorted l). rewrite insert_sorted_perm. now constructor.
Qed.

Lemma insert_sorted_hd (x y : string) (l : list string) :
  le_str y x -> HdRel le_str y l -> HdRel le_str y (insert_sorted x l).
Proof.
  intros Hyx Hl. destruct l as [|z l]; cbn [insert_sorted].
  - now constructor.
  - destruct (String.leb x z); constructor; [exact Hyx|].
    now inversion Hl.
Qed.

Lemma insert_sorted_keeps (x : string) (l : list string) :
  Sorted le_str l -> Sorted le_str (insert_sorted x l).
Proof.
  induction 1 as [|y l Hs IH Hhd]; cbn [insert_sorted].
  - repeat constructor.
  - destruct (String.leb x y) eqn:E.
    + constructor; [now constructor|now constructor].
    + constructor; [exact IH|].
      apply insert_sorted_hd; [|exact Hhd]. now apply leb_false_flip.
Qed.

Lemma sorted_is_sorted (l : list string) : Sorted le_str (sorted l).
Proof.
  induction l as [|x l IH]; cbn [sorted fold_right]; [constructor|].
  now apply insert_sorted_keeps.
Qed.

(** Inserting two strings gives the same list in either order. *)
Lemma insert_sorted_comm (x y : string) (l : list string) :
  insert_sorted x (insert_sorted y l) = insert_sorted y (insert_sorted x l).
Proof.
  induction l as [|z l IH]; cbn [insert_sorted].
  - destruct (String.leb y x) eqn:Eyx, (String.leb x y) eqn:Exy;
      cbn [insert_sorted]; rewrite ?Eyx, ?Exy; try reflexivity.
    + now rewrite (String.leb_antisym x y Exy Eyx).
    + apply leb_false_flip in Eyx. congruence.
  - destruct (String.leb y z) eqn:Eyz, (String.leb x z) eqn:Exz;
      cbn [insert_sorted];
      destruct (String.leb x y) eqn:Exy, (String.leb y x) eqn:Eyx;
      rewrite ?Eyz, ?Exz; cbn [insert_sorted]; rewrite ?Eyz, ?Exz;
      try reflexivity;
      try (apply leb_false_flip in Exy; congruence);
      try (rewrite (String.leb_antisym x y Exy Eyx); reflexivity);
      try (rewrite (leb_trans x y z Exy Eyz) in Exz; discriminate);
      try (rewrite (leb_trans y x z Eyx Exz) in Eyz; discriminate);
      try (f_equal; exact IH).
Qed.

(** The sorted list depends on the elements only, not on their order. *)
Lemma sorted_of_permutation (l l' : list string) :
  Permutation l l' -> sorted l = sorted l'.
Proof.
  induction 1 as [|x l l' _ IH|x y l|l l' l'' _ IH1 _ IH2];
    cbn [sorted fold_right].
  - reflexivity.
  - fold (sorted l) (sorted l'). now rewrite IH.
  - apply insert_sorted_comm.
  - congruence.
Qed.

Lemma filter_permutation {A : Type} (p : A -> bool) (l l' : list A) :
  Permutation l l' -> Permutation (filter p l) (filter p l').
Proof.
  induction 1 as [|x l l' _ IH|x y l|l l' l'' _ IH1 _ IH2]; cbn [filter].
  - constructor.
  - destruct (p x); [now constructor|exact IH].
  - destruct (p x), (p y); try reflexivity. apply perm_swap.
  - now transitivity (filter p l').
Qed.

End SortFacts.

Definition name_matches (e : dirent) : bool :=
  looks_like_sequence_file (name e).

Lemma filter_match_eligible (l : list dirent) :
  filter is_match l = filter name_matches (filter eligible l).
Proof.
  induction l as [|e l IH]; [reflexivity|]. cbn [filter].
  change (is_match e) with (eligible e && name_matches e).
  destruct (eligible e); cbn [andb filter].
  - destruct (name_matches e); now rewrite IH.
  - exact IH.
Qed.

Lemma filter_outlier_eligible (l : list dirent) :
  filter is_outlier l
  = filter (fun e => negb (name_matches e)) (filter eligible l).
Proof.
  induction l as [|e l IH]; [reflexivity|]. cbn [filter].
  change (is_outlier e) with (eligible e && negb (name_matches e)).
  destruct (eligible e); cbn [andb filter].
  - destruct (name_matches e); cbn [negb]; now rewrite IH.
  - exact IH.
Qed.

(** The detector as a function of the number of outliers and of the
    matching paths. *)
Lemma subdirectory_handler_unfold (d : directory) :
  subdirectory_handler d
  = (fraction <- Float64.truediv (outliers d) (outliers d + matches d) ;;
     if (outliers d <=? ABSOLUTE_THRESHOLD)%Z
        && Float64.le fraction RELATIVE_THRESHOLD
     then
       seq <- TiffSequence_new
                (sorted (map (child_path d) (filter is_match (iterdir d)))) ;;
       Ok (Some (TiffSequenceReader_init seq))
     else Ok None).
Proof.
  unfold subdirectory_handler. rewrite sniff_loop_counts.
  rewrite length_map. reflexivity.
Qed.

Lemma subdirectory_handler_some (d : directory) (r : TiffSequenceReader) :
  subdirectory_handler d = Ok (Some r) -> r = sniffed_reader d.
Proof.
  rewrite subdirectory_handler_unfold.
  destruct (Float64.truediv _ _) as [f|e]; cbn [bind]; [|discriminate].
  destruct (_ && _); [|discriminate].
  unfold sniffed_reader.
  destruct (sorted _) as [|x l]; cbn [TiffSequence_new bind];
    [discriminate|].
  now intros [= <-].
Qed.

(** X1: when the detector accepts, the files of the reader it builds are
    exactly the paths of the matching entries, each once, in ascending
    order of their text; hidden entries, directories and outliers are not
    among them. *)
Theorem sniffed_files_sorted_matches (d : directory) (r : TiffSequenceReader) :
  subdirectory_handler d = Ok (Some r) ->
  Sorted SortFacts.le_str (files (_seq r))
  /\ Permutation (files (_seq r))
       (map (child_path d) (filter is_match (iterdir d)))
  /\ files (_seq r) <> [].
Proof.
  intros H. pose proof (subdirectory_handler_some d r H) as ->.
  unfold sniffed_reader, TiffSequenceReader_init. cbn [_seq files].
  split; [apply SortFacts.sorted_is_sorted|].
  split; [apply SortFacts.sorted_perm|].
  rewrite subdirectory_handler_unfold in H.
  destruct (Float64.truediv _ _) as [f|e]; cbn [bind] in H; [|discriminate].
  destruct (_ && _); [|discriminate].
  destruct (sorted _) as [|x l]; [discriminate|discriminate].
Qed.

(** X2: the detector looks only at the eligible entries and not at the
    order in which the directory lists them: two listings of one directory
    whose regular, non-hidden entries are the same up to order give the same
    outcome, be it a reader, [None] or the division error. *)
Theorem subdirectory_handler_listing_order (d d' : directory) :
  dirpath d = dirpath d' ->
  Permutation (filter eligible (iterdir d)) (filter eligible (iterdir d')) ->
  subdirectory_handler d = subdirectory_handler d'.
Proof.
  intros Hpath Hperm.
  assert (Hm : Permutation (filter is_match (iterdir d))
                           (filter is_match (iterdir d'))).
  { rewrite !filter_match_eligible. now apply SortFacts.filter_permutation. }
  assert (Ho : outliers d = outliers d').
  { unfold outliers. rewrite !filter_outlier_eligible. f_equal.
    apply Permutation_length. now apply SortFacts.filter_permutation. }
  assert (Hn : matches d = matches d').
  { unfold matches. f_equal. now apply Permutation_length. }
  assert (Hs : sorted (map (child_path d) (filter is_match (iterdir d)))
               = sorted (map (child_path d') (filter is_match (iterdir d')))).
  { apply SortFacts.sorted_of_permutation.
    assert (E : forall e, child_path d e = child_path d' e)
      by (intros e; unfold child_path; now rewrite Hpath).
    rewrite (map_ext _ _ E). now apply Permutation_map. }
  rewrite !subdirectory_handler_unfold, Ho, Hn, Hs. reflexivity.
Qed.

(** * Further properties of the reader *)

(** X3: whichever keyword the installed [tifffile] takes, [_safe_asarray]
    gives what loading the requested index gives: the frame, the whole
    array, or the error of the load; a [TypeError] raised by the load itself
    stays a [TypeError]. *)
Theorem safe_asarray_either_api (imread : string -> result ndarray)
    (asarray_all : list string -> result ndarray) (legacy_api : bool)
    (seq : TiffSequence) (index : option Z) :
  _safe_asarray imread asarray_all legacy_api seq index
  = load imread asarray_all seq index.
Proof. apply _safe_asarray_load. Qed.

Lemma key_eqb_refl (k : key) : key_eqb k k = true.
Proof. now apply key_eqb_eq. Qed.

(** After a call through the cache that returned a value, a cache with
    room for one entry holds that value under the key. *)
Lemma with_object_cache_then_lookup k f c v :
  (0 < capacity c)%nat ->
  fst (with_object_cache k f c) = Ok v ->
  lookup k (entries (snd (with_object_cache k f c))) = Some v.
Proof.
  intros Hcap. unfold with_object_cache.
  destruct (lookup k (entries c)) as [v0|] eqn:El.
  - cbn [fst snd entries]. intros [= ->]. unfold lookup. cbn [find fst].
    now rewrite key_eqb_refl.
  - destruct (f tt) as [v0|e]; cbn [fst snd entries]; [|discriminate].
    intros [= ->]. destruct (capacity c) as [|n]; [lia|].
    cbn [firstn]. unfold lookup. cbn [find fst]. now rewrite key_eqb_refl.
Qed.

(** X4: a frame that [read] has returned for an index is served from the
    cache on the very next read of that index, without decoding: the second
    read returns the same frame even when the file has changed in the
    meantime (another decoder, another [tifffile]), provided the cache
    keeps at least one entry. *)
Theorem read_again_is_served_from_cache
    (imread imread' : string -> result ndarray)
    (asarray_all asarray_all' : list string -> result ndarray)
    (legacy_api legacy_api' : bool)
    (np_getitem np_getitem' : ndarray -> pyval -> result ndarray)
    (self : TiffSequenceReader) (i : Z) (c : cache) (frame : ndarray) :
  (0 < capacity c)%nat ->
  fst (read imread asarray_all legacy_api np_getitem self (PInt i) c)
  = Ok (Some frame) ->
  fst (read imread' asarray_all' legacy_api' np_getitem' self (PInt i)
         (snd (read imread asarray_all legacy_api np_getitem self (PInt i) c)))
  = Ok (Some frame).
Proof.
  intros Hcap. cbn [read]. unfold mbind, cached_frame.
  pose proof (with_object_cache_then_lookup (_cache_key self ++ [KInt i])
                (fun _ => _safe_asarray imread asarray_all legacy_api
                            (_seq self) (Some i)) c) as Hstored.
  destruct (with_object_cache _ _ c) as [[a|e] c1]; cbn [fst snd ret] in *;
    [|discriminate].
  intros [= ->]. specialize (Hstored frame Hcap eq_refl).
  unfold with_object_cache. rewrite Hstored. reflexivity.
Qed.

Section ReaderMore.

Variable imread : string -> result ndarray.
Variable asarray_all : list string -> result ndarray.
Variable legacy_api : bool.
Variable np_getitem : ndarray -> pyval -> result ndarray.

Local Abbreviation load := (load imread asarray_all).
Local Abbreviation _safe_asarray :=
  (_safe_asarray imread asarray_all legacy_api).
Local Abbreviation cached_frame :=
  (cached_frame imread asarray_all legacy_api).
Local Abbreviation read_slice := (read_slice imread asarray_all legacy_api).
Local Abbreviation read := (read imread asarray_all legacy_api np_getitem).
Local Abbreviation read_block :=
  (read_block imread asarray_all legacy_api np_getitem).
Local Abbreviation macrostructure :=
  (macrostructure imread asarray_all legacy_api np_getitem).
Local Abbreviation cache_ok := (cache_ok imread asarray_all).
Local Abbreviation frame_at := (frame_at imread).

(** The entry under the key of the reader itself, if any, is the whole
    array. *)
Definition whole_ok (self : TiffSequenceReader) (c : cache) : Prop :=
  forall v,
    lookup (_cache_key self) (entries c) = Some v ->
    asarray_all (files (_seq self)) = Ok v.

(** Every entry under a key of the reader holds what loading would give. *)
Definition cache_faithful (self : TiffSequenceReader) (c : cache) : Prop :=
  cache_ok self c /\ whole_ok self c.

Lemma cache_faithful_empty (self : TiffSequenceReader) (n : nat) :
  cache_faithful self (empty n).
Proof. split; intros ? ?; discriminate. Qed.

Lemma cached_frame_whole_ok (self : TiffSequenceReader) (i : Z) (c : cache) :
  whole_ok self c -> whole_ok self (snd (cached_frame self i c)).
Proof.
  intros H v Hl. unfold cached_frame in Hl.
  apply with_object_cache_lookup in Hl.
  destruct Hl as [Hl|[Hk _]]; [now apply H|].
  symmetry in Hk. now apply indexed_key_not_base in Hk.
Qed.

Lemma for_each_whole_ok (self : TiffSequenceReader) (idxs : list Z) :
  forall c, whole_ok self c ->
            whole_ok self (snd (for_each (cached_frame self) idxs c)).
Proof.
  induction idxs as [|i idxs IH]; intros c H; [exact H|].
  cbn [for_each]. unfold mbind.
  pose proof (cached_frame_whole_ok self i c H) as H1.
  destruct (cached_frame self i c) as [[a|e] c1]; cbn [snd] in H1 |- *;
    [|exact H1].
  specialize (IH c1 H1).
  destruct (for_each (cached_frame self) idxs c1) as [[l|e] c2];
    cbn [snd] in IH |- *; exact IH.
Qed.

Lemma read_slice_whole_ok (self : TiffSequenceReader) start stop step c :
  whole_ok self c -> whole_ok self (snd (read_slice self start stop step c)).
Proof.
  intros H. unfold read_slice.
  destruct stop as [stop|]; [|exact H]. unfold mbind, lift.
  destruct (range _ stop _) as [idxs|e]; [|exact H].
  pose proof (for_each_whole_ok self idxs c H) as H1.
  destruct (for_each (cached_frame self) idxs c) as [[l|e] c1];
    cbn [snd] in H1 |- *; exact H1.
Qed.

Lemma read_whole_ok (self : TiffSequenceReader) (slice : pyval) (c : cache) :
  whole_ok self c -> whole_ok self (snd (read self slice c)).
Proof.
  intros Hok.
  assert (Htail : forall (m : M ndarray) rest,
             whole_ok self (snd (m c)) ->
             whole_ok self
               (snd ((arr <~ m ;;
                      arr' <~ lift (np_getitem arr (PTuple rest)) ;;
                      ret (Some arr')) c))).
  { intros m rest Hm. unfold mbind, lift.
    destruct (m c) as [[a|e] c1]; cbn [snd] in Hm |- *; [|exact Hm].
    destruct (np_getitem a (PTuple rest)); exact Hm. }
  destruct slice as [|i|start stop step|[|axis rest]|tn];
    cbn [read].
  - unfold mbind.
    assert (H : whole_ok self
                  (snd (with_object_cache (_cache_key self)
                          (fun _ => _safe_asarray (_seq self) None) c))).
    { intros v Hl. apply with_object_cache_lookup in Hl.
      destruct Hl as [Hl|[_ Hf]]; [now apply Hok|].
      now rewrite _safe_asarray_load in Hf. }
    destruct (with_object_cache _ _ c) as [[a|e] c1]; exact H.
  - unfold mbind. pose proof (cached_frame_whole_ok self i c Hok) as H.
    destruct (cached_frame self i c) as [[a|e] c1]; exact H.
  - unfold mbind.
    pose proof (read_slice_whole_ok self start stop step c Hok) as H.
    destruct (read_slice self start stop step c) as [[a|e] c1]; exact H.
  - exact Hok.
  - destruct axis as [|i|start stop step|items|tn];
      try (apply Htail; exact Hok).
    + apply Htail. now apply cached_frame_whole_ok.
    + apply Htail. now apply read_slice_whole_ok.
  - exact Hok.
Qed.

(** What [read] computes when nothing is cached. *)
Definition slice_uncached (self : TiffSequenceReader)
    (start stop step : option Z) : result ndarray :=
  match stop with
  | None => Raise TypeError
  | Some stop' =>
      idxs <- range (match start with None => 0 | Some s => s end) stop'
                    (match step with None => 1 | Some s => s end) ;;
      frames <- decode_all imread asarray_all (_seq self) idxs ;;
      stack frames
  end.

Definition read_uncached (self : TiffSequenceReader) (slice : pyval)
    : result (option ndarray) :=
  match slice with
  | PNone => arr <- load (_seq self) None ;; Ok (Some arr)
  | PInt i => arr <- load (_seq self) (Some i) ;; Ok (Some arr)
  | PTuple [] => Raise ValueError
  | PTuple (image_axis :: the_rest) =>
      arr <- match image_axis with
             | PInt i => load (_seq self) (Some i)
             | PSlice start stop step => slice_uncached self start stop step
             | _ => Raise UnboundLocalError
             end ;;
      arr' <- np_getitem arr (PTuple the_rest) ;;
      Ok (Some arr')
  | PSlice start stop step =>
      arr <- slice_uncached self start stop step ;; Ok (Some arr)
  | PObject _ => Ok None
  end.

Lemma read_slice_result (self : TiffSequenceReader) start stop step c :
  cache_ok self c ->
  fst (read_slice self start stop step c)
  = slice_uncached self start stop step.
Proof.
  intros Hok. destruct stop as [stop|]; [|reflexivity].
  now apply read_slice_spec.
Qed.

Lemma read_result (self : TiffSequenceReader) (slice : pyval) (c : cache) :
  cache_faithful self c -> fst (read self slice c) = read_uncached self slice.
Proof.
  intros [Hok Hwhole].
  assert (Hframe : forall i, fst (cached_frame self i c)
                             = load (_seq self) (Some i))
    by (intros i; now apply cached_frame_spec).
  assert (Htail : forall (m : M ndarray) rest,
             fst ((arr <~ m ;;
                   arr' <~ lift (np_getitem arr (PTuple rest)) ;;
                   ret (Some arr')) c)
             = (arr <- fst (m c) ;;
                arr' <- np_getitem arr (PTuple rest) ;; Ok (Some arr'))).
  { intros m rest. unfold mbind, lift.
    destruct (m c) as [[a|e] c1]; cbn [fst bind]; [|reflexivity].
    destruct (np_getitem a (PTuple rest)); reflexivity. }
  destruct slice as [|i|start stop step|[|axis rest]|tn];
    cbn [read read_uncached].
  - unfold mbind.
    pose proof (with_object_cache_result (_cache_key self)
                  (fun _ => _safe_asarray (_seq self) None) c) as H.
    destruct (lookup (_cache_key self) (entries c)) as [v|] eqn:El.
    + apply Hwhole in El. cbn [load]. rewrite El.
      destruct (with_object_cache _ _ c) as [[a|e] c1]; cbn [fst] in H;
        [|discriminate].
      injection H as ->. reflexivity.
    + destruct (with_object_cache _ _ c) as [[a|e] c1]; cbn [fst] in H;
        cbv beta in H; rewrite _safe_asarray_load in H; rewrite <- H;
        reflexivity.
  - unfold mbind. specialize (Hframe i).
    destruct (cached_frame self i c) as [[a|e] c1]; cbn [fst] in Hframe;
      rewrite <- Hframe; reflexivity.
  - unfold mbind.
    pose proof (read_slice_result self start stop step c Hok) as H.
    destruct (read_slice self start stop step c) as [[a|e] c1];
      cbn [fst] in H; rewrite <- H; reflexivity.
  - reflexivity.
  - destruct axis as [|i|start stop step|items|tn]; rewrite Htail;
      try reflexivity.
    + now rewrite Hframe.
    + now rewrite read_slice_result.
  - reflexivity.
Qed.

(** X5: the cache never changes what [read] returns. Whatever the
    selector, with a cache whose entries under the keys of the reader hold
    what loading gives, [read] returns (or raises) exactly what it does with
    a cache that stores nothing; and it leaves the cache in such a state, so
    this holds along any sequence of reads that starts from an empty
    cache. *)
Theorem read_ignores_cache (self : TiffSequenceReader) (slice : pyval)
    (c : cache) :
  cache_faithful self c ->
  fst (read self slice c) = fst (read self slice (empty 0))
  /\ cache_faithful self (snd (read self slice c)).
Proof.
  intros H. split.
  - rewrite (read_result self slice c H).
    now rewrite (read_result self slice (empty 0)
                   (cache_faithful_empty self 0)).
  - destruct H as [Hok Hwhole]. split.
    + now apply read_cache_ok.
    + now apply read_whole_ok.
Qed.

(** X6: a tuple selector is the read of its first element followed by
    [numpy] indexing of the result with the remaining elements, with the
    same effect on the cache: an array read for the first element is indexed
    with the rest, and an error of that read comes out unchanged. The first
    element has to be an [int] or a [slice]: any other raises
    [UnboundLocalError], and the empty tuple raises [ValueError], both
    before the cache is touched. *)
Theorem read_tuple_composes (self : TiffSequenceReader)
    (image_axis : pyval) (the_rest : list pyval) (c : cache) :
  read self (PTuple []) c = (Raise ValueError, c)
  /\ match image_axis with
     | PInt _ | PSlice _ _ _ =>
         (forall arr c',
             read self image_axis c = (Ok (Some arr), c') ->
             read self (PTuple (image_axis :: the_rest)) c
             = (arr' <- np_getitem arr (PTuple the_rest) ;; Ok (Some arr'),
                c'))
         /\ (forall e c',
                read self image_axis c = (Raise e, c') ->
                read self (PTuple (image_axis :: the_rest)) c
                = (Raise e, c'))
     | _ =>
         read self (PTuple (image_axis :: the_rest)) c
         = (Raise UnboundLocalError, c)
     end.
Proof.
  split; [reflexivity|].
  destruct image_axis as [|i|start stop step|items|tn]; try reflexivity;
    cbn [read]; unfold mbind, lift.
  - destruct (cached_frame self i c) as [[a|e] c1]; cbn [ret]; split;
      intros x c' [= <- <-]; try reflexivity.
    destruct (np_getitem a (PTuple the_rest)); reflexivity.
  - destruct (read_slice self start stop step c) as [[a|e] c1]; cbn [ret];
      split; intros x c' [= <- <-]; try reflexivity.
    destruct (np_getitem a (PTuple the_rest)); reflexivity.
Qed.

(** X7: with a sub-selector, [read_block] does what it does without one
    and then indexes the chunk with the sub-selector: the cache ends in the
    same state, the sub-selector is applied to the chunk alone, and an error
    of the block read comes out unchanged. *)
Theorem read_block_sub_selector (self : TiffSequenceReader)
    (block : list Z) (slice : pyval) (c : cache) :
  slice <> PNone ->
  (forall arr c',
      read_block self block PNone c = (Ok (Some arr), c') ->
      read_block self block slice c
      = (arr' <- np_getitem arr slice ;; Ok (Some arr'), c'))
  /\ (forall e c',
         read_block self block PNone c = (Raise e, c') ->
         read_block self block slice c = (Raise e, c')).
Proof.
  intros Hsel. unfold read_block.
  destruct (negb (ints_eqb (tl block) [0; 0])).
  { split; intros x c' H; [discriminate|exact H]. }
  unfold mbind at 1 3 5. unfold lift.
  destruct (getitem block 0) as [b0|e0].
  2:{ split; intros x c' H; [discriminate|exact H]. }
  unfold mbind.
  destruct (read self (PSlice (Some b0) (Some (b0 + 1)) None) c)
    as [[[a|]|e] c1];
    cbn [ret]; split; intros x c' [= <- <-];
    destruct slice; try congruence; try reflexivity;
    unfold lift; destruct (np_getitem _ _); reflexivity.
Qed.

Lemma range_empty_forward (start stop step : Z) :
  0 < step -> stop <= start -> range start stop step = Ok [].
Proof.
  intros Hs Hle. unfold range, range_len.
  destruct (step =? 0) eqn:E0; [apply Z.eqb_eq in E0; lia|].
  rewrite (proj2 (Z.ltb_lt 0 step) Hs).
  destruct (start <? stop) eqn:E; [apply Z.ltb_lt in E; lia|]. reflexivity.
Qed.

Lemma range_empty_backward (start stop step : Z) :
  step < 0 -> start <= stop -> range start stop step = Ok [].
Proof.
  intros Hs Hle. unfold range, range_len.
  destruct (step =? 0) eqn:E0; [apply Z.eqb_eq in E0; lia|].
  destruct (0 <? step) eqn:Ep; [apply Z.ltb_lt in Ep; lia|].
  destruct (stop <? start) eqn:E; [apply Z.ltb_lt in E; lia|]. reflexivity.
Qed.

(** X8: slices that select nothing are errors, not empty arrays: a slice
    with no [stop] raises [TypeError], a step of zero raises [ValueError],
    and a range that yields no index (a [stop] not after [start] for a
    positive step, not before it for a negative one) raises the
    [ValueError] of [numpy.stack]; none of them touches the cache. *)
Theorem read_slice_selecting_nothing (self : TiffSequenceReader)
    (start step : option Z) (stop : Z) (c : cache) :
  read self (PSlice start None step) c = (Raise TypeError, c)
  /\ read self (PSlice start (Some stop) (Some 0)) c = (Raise ValueError, c)
  /\ (let first := match start with None => 0 | Some s => s end in
      let stride := match step with None => 1 | Some s => s end in
      (0 < stride /\ stop <= first) \/ (stride < 0 /\ first <= stop) ->
      read self (PSlice start (Some stop) step) c = (Raise ValueError, c)).
Proof.
  split; [reflexivity|]. split; [reflexivity|].
  intros first stride H. cbn [read].
  unfold mbind, read_slice, mbind, lift.
  fold first stride.
  assert (E : range first stop stride = Ok []).
  { destruct H as [[H1 H2]|[H1 H2]];
      [now apply range_empty_forward|now apply range_empty_backward]. }
  rewrite E. reflexivity.
Qed.

Lemma decode_all_fails_at (self : TiffSequenceReader) (pre post : list Z)
    (i : Z) (e : exn) :
  Forall (fun j => exists f, frame_at self j = Ok f) pre ->
  frame_at self i = Raise e ->
  decode_all imread asarray_all (_seq self) (pre ++ i :: post) = Raise e.
Proof.
  intros Hpre Hi. induction Hpre as [|j pre [f Hj] _ IH];
    cbn [app decode_all map_result].
  - change (load (_seq self) (Some i)) with (frame_at self i).
    now rewrite Hi.
  - change (load (_seq self) (Some j)) with (frame_at self j).
    rewrite Hj. cbn [bind].
    fold (decode_all imread asarray_all (_seq self) (pre ++ i :: post)).
    now rewrite IH.
Qed.

Lemma frame_at_out_of_bounds (self : TiffSequenceReader) (i : Z) :
  Z.of_nat (List.length (files (_seq self))) <= i
  \/ i < - Z.of_nat (List.length (files (_seq self))) ->
  frame_at self i = Raise IndexError.
Proof.
  intros H. unfold frame_at, getitem.
  set (n := Z.of_nat (List.length (files (_seq self)))) in *.
  destruct (i <? 0) eqn:Eneg.
  - apply Z.ltb_lt in Eneg.
    destruct (0 <=? i + n) eqn:E0; [apply Z.leb_le in E0; lia|]. reflexivity.
  - apply Z.ltb_ge in Eneg.
    destruct ((0 <=? i) && (i <? n)) eqn:E; [|reflexivity].
    apply andb_true_iff in E. destruct E as [_ E]. apply Z.ltb_lt in E. lia.
Qed.

(** X9: a range is not clamped to the number of files. When the range of
    a slice reaches an index that is not below the number of files (or is
    below its negative), and the frames of the indices before it decode,
    [read] raises [IndexError]. *)
Theorem read_range_not_clamped (self : TiffSequenceReader)
    (start step : option Z) (stop : Z) (c : cache)
    (pre post : list Z) (i : Z) :
  cache_ok self c ->
  range (match start with None => 0 | Some s => s end) stop
        (match step with None => 1 | Some s => s end)
  = Ok (pre ++ i :: post) ->
  Forall (fun j => exists f, frame_at self j = Ok f) pre ->
  Z.of_nat (List.length (files (_seq self))) <= i
  \/ i < - Z.of_nat (List.length (files (_seq self))) ->
  fst (read self (PSlice start (Some stop) step) c) = Raise IndexError.
Proof.
  intros Hok Hrange Hpre Hi.
  pose proof (read_slice_spec imread asarray_all legacy_api self start stop
                step c Hok) as Hspec.
  rewrite Hrange in Hspec. cbn [bind] in Hspec.
  rewrite (decode_all_fails_at self pre post i IndexError Hpre
             (frame_at_out_of_bounds self i Hi)) in Hspec.
  cbn [bind] in Hspec. cbn [read]. unfold mbind.
  destruct (read_slice self start (Some stop) step c) as [[a|e] c1];
    cbn [fst] in Hspec; [discriminate|].
  injection Hspec as ->. reflexivity.
Qed.

Lemma frame_at_negative (self : TiffSequenceReader) (i : Z) :
  - Z.of_nat (List.length (files (_seq self))) <= i < 0 ->
  frame_at self i
  = frame_at self (i + Z.of_nat (List.length (files (_seq self)))).
Proof.
  intros H. unfold frame_at, getitem.
  set (n := Z.of_nat (List.length (files (_seq self)))) in *.
  rewrite (proj2 (Z.ltb_lt i 0)) by lia.
  destruct (i + n <? 0) eqn:E; [apply Z.ltb_lt in E; lia|]. reflexivity.
Qed.

(** X10: an integer selector follows Python's indexing of the file list.
    A negative index from [-n] to [-1] returns the frame of the file at
    [i + n], counted from the end, though it is cached under the key of [i]
    itself; an index that is not below [n], or below [-n], raises
    [IndexError] and stores nothing. *)
Theorem read_index_bounds (self : TiffSequenceReader) (i : Z) (c : cache) :
  cache_ok self c ->
  let n := Z.of_nat (List.length (files (_seq self))) in
  (- n <= i < 0 ->
   fst (read self (PInt i) c) = fst (read self (PInt (i + n)) c)
   /\ _cache_key self ++ [KInt i] <> _cache_key self ++ [KInt (i + n)])
  /\ (n <= i \/ i < - n -> read self (PInt i) c = (Raise IndexError, c)).
Proof.
  intros Hok n. split.
  - intros Hi. split.
    + cbn [read]. unfold mbind.
      destruct (cached_frame_spec imread asarray_all legacy_api self i c Hok)
        as [H1 _].
      destruct (cached_frame_spec imread asarray_all legacy_api self (i + n)
                  c Hok) as [H2 _].
      change (load (_seq self) (Some i)) with (frame_at self i) in H1.
      change (load (_seq self) (Some (i + n))) with (frame_at self (i + n))
        in H2.
      rewrite (frame_at_negative self i Hi) in H1. fold n in H1.
      destruct (cached_frame self i c) as [[a|e] c1];
        destruct (cached_frame self (i + n) c) as [[a'|e'] c2];
        unfold ret; cbn [fst] in *; congruence.
    + intros E. apply indexed_key_inj in E. lia.
  - intros Hi. pose proof (frame_at_out_of_bounds self i Hi) as Hf.
    cbn [read]. unfold mbind, cached_frame,
      with_object_cache.
    destruct (lookup _ (entries c)) as [v|] eqn:El.
    + apply Hok in El.
      change (load (_seq self) (Some i)) with (frame_at self i) in El.
      congruence.
    + rewrite _safe_asarray_load.
      change (load (_seq self) (Some i)) with (frame_at self i).
      rewrite Hf. reflexivity.
Qed.

Lemma getitem_in_range {A : Type} (l : list A) (k : Z) :
  0 <= k < Z.of_nat (List.length l) ->
  getitem l k = match nth_error l (Z.to_nat k) with
                | Some a => Ok a
                | None => Raise IndexError
                end.
Proof.
  intros H. unfold getitem.
  rewrite (proj2 (Z.ltb_ge k 0)) by lia.
  rewrite (proj2 (Z.leb_le 0 k)) by lia.
  rewrite (proj2 (Z.ltb_lt k _)) by lia. reflexivity.
Qed.

(** X11: [macrostructure] takes the extents after the first from the
    frame of file 0 and always builds exactly three chunk axes. A frame of
    fewer than two axes makes it raise [IndexError]; a frame of more than
    two axes gives a shape that is longer than the chunks, whose axes beyond
    the third have no chunk sizes. *)
Theorem macrostructure_by_frame_rank (self : TiffSequenceReader) (c : cache)
    (first : ndarray) :
  cache_ok self c ->
  frame_at self 0 = Ok first ->
  fst (macrostructure self c)
  = match shape first with
    | h :: w :: more =>
        Ok {| ms_shape := Z.of_nat (List.length (files (_seq self)))
                          :: h :: w :: more;
              ms_chunks := [repeat 1 (List.length (files (_seq self)));
                            [h]; [w]] |}
    | _ => Raise IndexError
    end.
Proof.
  intros Hok Hf. unfold macrostructure, mbind.
  cbn [read]. unfold mbind.
  destruct (cached_frame_spec imread asarray_all legacy_api self 0 c Hok)
    as [Hr _].
  change (load (_seq self) (Some 0)) with (frame_at self 0) in Hr.
  rewrite Hf in Hr.
  destruct (cached_frame self 0 c) as [[a|e] c1]; cbn [fst] in Hr;
    [|discriminate].
  injection Hr as ->. cbn [ret].
  destruct (shape first) as [|h [|w more]]; try reflexivity.
  unfold mbind, lift.
  rewrite !getitem_in_range by (cbn [List.length]; lia).
  cbn [Z.to_nat nth_error]. change (Pos.to_nat 1) with 1%nat.
  change (Pos.to_nat 2) with 2%nat. cbn [nth_error ret fst].
  rewrite Nat2Z.id. reflexivity.
Qed.

(** X12: a block that does not have exactly three components is refused
    with [IndexError], whatever its first index and whatever the
    sub-selector, and the files and the cache are not touched. *)
Theorem read_block_wrong_arity (self : TiffSequenceReader) (block : list Z)
    (slice : pyval) (c : cache) :
  List.length block <> 3%nat ->
  read_block self block slice c = (Raise IndexError, c).
Proof.
  intros Hlen. unfold read_block.
  destruct (ints_eqb (tl block) [0; 0]) eqn:E; [|reflexivity].
  exfalso. destruct block as [|b0 [|b1 [|b2 [|b3 rest]]]]; cbn in *;
    try discriminate; lia.
Qed.

(** X13: a negative first block index is not refused: for [b0] from [-n]
    to [-1], [read_block] with [(b0, 0, 0)] returns the frame of the file
    at [b0 + n], counted from the end, under one more leading axis. *)
Theorem read_block_negative_index (self : TiffSequenceReader) (c : cache)
    (b0 : Z) (frame : ndarray) :
  cache_ok self c ->
  - Z.of_nat (List.length (files (_seq self))) <= b0 < 0 ->
  frame_at self (b0 + Z.of_nat (List.length (files (_seq self)))) = Ok frame ->
  fst (read_block self [b0; 0; 0] PNone c)
  = Ok (Some {| shape := 1 :: shape frame; data := data frame |}).
Proof.
  intros Hok Hb Hf. rewrite <- (frame_at_negative self b0 Hb) in Hf.
  unfold read_block. cbn [tl].
  change (ints_eqb [0; 0] [0; 0]) with true. cbn [negb].
  unfold mbind at 1. unfold lift.
  change (getitem [b0; 0; 0] 0) with (Ok b0). cbv iota.
  pose proof (read_slice_spec imread asarray_all legacy_api self (Some b0)
                (b0 + 1) None c Hok) as Hspec.
  rewrite range_single in Hspec. cbn [bind] in Hspec.
  rewrite (decode_all_frames imread asarray_all self [b0] [frame]) in Hspec
    by (repeat constructor; assumption).
  cbn [bind] in Hspec.
  rewrite (stack_same_shape [frame] (shape frame)) in Hspec;
    [|discriminate|repeat constructor].
  cbn [List.length map List.concat] in Hspec. rewrite app_nil_r in Hspec.
  unfold mbind. cbn [read]. unfold mbind.
  destruct (read_slice self (Some b0) (Some (b0 + 1)) None c)
    as [[a|e] c1]; cbn [fst] in Hspec; [|discriminate].
  injection Hspec as ->. reflexivity.
Qed.

Lemma for_each_app {A B : Type} (f : A -> M B) (l1 l2 : list A) :
  forall c,
    for_each f (l1 ++ l2) c
    = match for_each f l1 c with
      | (Ok ys, c1) =>
          match for_each f l2 c1 with
          | (Ok zs, c2) => (Ok (ys ++ zs), c2)
          | (Raise e, c2) => (Raise e, c2)
          end
      | (Raise e, c1) => (Raise e, c1)
      end.
Proof.
  induction l1 as [|x l1 IH]; intros c; cbn [app for_each].
  - cbn [ret]. destruct (for_each f l2 c) as [[zs|e] c2]; reflexivity.
  - unfold mbind. destruct (f x c) as [[y|e] c0]; [|reflexivity].
    rewrite IH. destruct (for_each f l1 c0) as [[ys|e] c1]; [|reflexivity].
    cbn [ret]. destruct (for_each f l2 c1) as [[zs|e] c2]; reflexivity.
Qed.

Lemma decodable_frames (self : TiffSequenceReader) (idxs : list Z) :
  Forall (fun i => exists f, frame_at self i = Ok f) idxs ->
  exists frames, Forall2 (fun i f => frame_at self i = Ok f) idxs frames.
Proof.
  induction 1 as [|i idxs [f Hf] _ [frames IH]].
  - exists []. constructor.
  - exists (f :: frames). now constructor.
Qed.

Lemma Forall2_at {A B : Type} (R : A -> B -> Prop) (l : list A)
    (l' : list B) (x : A) :
  Forall2 R l l' -> In x l -> exists y, R x y.
Proof.
  induction 1 as [|a b l l' Hab _ IH]; intros Hin; [destruct Hin|].
  destruct Hin as [->|Hin]; [now exists b|now apply IH].
Qed.

(** X17: a range read that fails part of the way keeps what it has done.
    When the frames of the first indices of the range decode, the file of
    the next index fails to load, and the cache can hold the frames
    decoded so far, [read] raises the error of that load; the frames
    decoded before it stay in the cache, each under the key of its index,
    and the files after the failing one are not touched: nothing else has
    been stored. *)
Theorem read_range_failure_keeps_frames (self : TiffSequenceReader)
    (start step : option Z) (stop : Z) (c : cache)
    (good rest : list Z) (bad : Z) (e : exn) :
  cache_ok self c ->
  range (match start with None => 0 | Some s => s end) stop
        (match step with None => 1 | Some s => s end)
  = Ok (good ++ bad :: rest) ->
  Forall (fun i => exists f, frame_at self i = Ok f) good ->
  frame_at self bad = Raise e ->
  (List.length good <= capacity c)%nat ->
  fst (read self (PSlice start (Some stop) step) c) = Raise e
  /\ (forall i f,
         In i good -> frame_at self i = Ok f ->
         lookup (_cache_key self ++ [KInt i])
           (entries (snd (read self (PSlice start (Some stop) step) c)))
         = Some f)
  /\ (forall k v,
         In (k, v)
            (entries (snd (read self (PSlice start (Some stop) step) c))) ->
         In (k, v) (entries c)
         \/ exists i, In i good /\ k = _cache_key self ++ [KInt i]
                      /\ frame_at self i = Ok v).
Proof.
  intros Hok Hrange Hgood Hbad Hroom.
  destruct (decodable_frames self good Hgood) as [frames Hframes].
  destruct (for_each_cached_frame_spec imread asarray_all legacy_api self
              good c Hok) as [Hres Hok1].
  rewrite (decode_all_frames imread asarray_all self good frames Hframes)
    in Hres.
  destruct (for_each (cached_frame self) good c) as [[l|e0] c1] eqn:Ef;
    cbn [fst snd] in Hres, Hok1; [|discriminate].
  injection Hres as ->.
  assert (Hfail : cached_frame self bad c1 = (Raise e, c1)).
  { unfold cached_frame, with_object_cache.
    destruct (lookup _ (entries c1)) as [v|] eqn:El.
    - apply Hok1 in El.
      change (load (_seq self) (Some bad)) with (frame_at self bad) in El.
      congruence.
    - rewrite (_safe_asarray_load imread asarray_all legacy_api).
      change (load (_seq self) (Some bad)) with (frame_at self bad).
      now rewrite Hbad. }
  assert (Eread : read self (PSlice start (Some stop) step) c
                  = (Raise e, c1)).
  { cbn [read]. unfold mbind, read_slice, mbind, lift.
    rewrite Hrange. rewrite for_each_app, Ef. cbn [for_each]. unfold mbind.
    rewrite Hfail. reflexivity. }
  rewrite Eread. cbn [fst snd]. split; [reflexivity|]. split.
  - intros i f Hi Hf.
    pose proof (for_each_cached_frame_stored imread asarray_all legacy_api
                  self good c frames c1
                  (NoDup_app_remove_r _ _
                     (range_nodup _ _ _ _ Hrange)) Hroom Ef) as Hall.
    destruct (Forall2_at _ good frames i Hall Hi) as [f' Hl].
    cbv beta in Hl. rewrite Hl. f_equal.
    apply Hok1 in Hl.
    change (load (_seq self) (Some i)) with (frame_at self i) in Hl.
    congruence.
  - intros k v Hin.
    pose proof (for_each_cached_frame_entries imread asarray_all legacy_api
                  self good c k v) as H.
    rewrite Ef in H. exact (H Hin).
Qed.

(** X18: [read] writes only under the keys of its own reader. Whatever
    the selector and the outcome, every entry of the cache after the call
    was there before, or is the whole array under the key of the reader, or
    is the frame of a file under that key extended with the index of the
    file. *)
Theorem read_writes_own_keys_only (self : TiffSequenceReader)
    (slice : pyval) (c : cache) (k : key) (v : ndarray) :
  In (k, v) (entries (snd (read self slice c))) ->
  In (k, v) (entries c)
  \/ (k = _cache_key self /\ asarray_all (files (_seq self)) = Ok v)
  \/ exists i, k = _cache_key self ++ [KInt i] /\ frame_at self i = Ok v.
Proof.
  assert (Hframe : forall i,
             In (k, v) (entries (snd (cached_frame self i c))) ->
             In (k, v) (entries c)
             \/ (k = _cache_key self /\ asarray_all (files (_seq self)) = Ok v)
             \/ exists j, k = _cache_key self ++ [KInt j]
                          /\ frame_at self j = Ok v).
  { intros i H.
    apply (cached_frame_entries imread asarray_all legacy_api self i c k v)
      in H.
    destruct H as [H|H]; [now left|right; right; now exists i]. }
  assert (Hslice : forall start stop step,
             In (k, v) (entries (snd (read_slice self start stop step c))) ->
             In (k, v) (entries c)
             \/ (k = _cache_key self /\ asarray_all (files (_seq self)) = Ok v)
             \/ exists j, k = _cache_key self ++ [KInt j]
                          /\ frame_at self j = Ok v).
  { intros start stop step H.
    apply (read_slice_entries imread asarray_all legacy_api self start stop
             step c k v) in H.
    destruct H as [H|H]; [now left|right; now right]. }
  assert (Htail : forall (m : M ndarray) rest,
             In (k, v)
               (entries
                  (snd ((arr <~ m ;;
                         arr' <~ lift (np_getitem arr (PTuple rest)) ;;
                         ret (Some arr')) c))) ->
             In (k, v) (entries (snd (m c)))).
  { intros m rest. unfold mbind, lift.
    destruct (m c) as [[a|e] c1]; cbn [snd]; [|trivial].
    destruct (np_getitem a (PTuple rest)); trivial. }
  destruct slice as [|i|start stop step|[|axis rest]|tn]; cbn [read].
  - unfold mbind.
    pose proof (with_object_cache_entries (_cache_key self)
                  (fun _ => _safe_asarray (_seq self) None) c k v) as H.
    destruct (with_object_cache _ _ c) as [[a|e] c1]; cbn [snd ret] in *;
      intros Hin; apply H in Hin; cbv beta in Hin;
      rewrite _safe_asarray_load in Hin;
      (destruct Hin as [Hin|Hin]; [now left|right; now left]).
  - unfold mbind. specialize (Hframe i).
    destruct (cached_frame self i c) as [[a|e] c1]; exact Hframe.
  - unfold mbind. specialize (Hslice start stop step).
    destruct (read_slice self start stop step c) as [[a|e] c1];
      exact Hslice.
  - now left.
  - destruct axis as [|i|start stop step|items|tn]; intros H;
      apply Htail in H; try (left; exact H).
    + exact (Hframe i H).
    + exact (Hslice start stop step H).
  - now left.
Qed.

End ReaderMore.

(** * Further properties of the router *)

Module RouterMore.
Import Router RouterFacts.

Lemma comma_digit_ends_of (fuel pos : nat) (d : ascii) (rest : list ascii) :
  is_digit d = true ->
  ends comma_digit fuel pos (comma :: d :: rest) = [(S (S pos), rest)].
Proof.
  intros Hd. unfold comma_digit. rewrite ends_cat. cbn [ends].
  change (Ascii.eqb "," comma) with true. cbn [flat_map fst snd ends].
  change ((nat_of_ascii "0" <=? nat_of_ascii d)%nat
          && (nat_of_ascii d <=? nat_of_ascii "9")%nat) with (is_digit d).
  rewrite Hd. reflexivity.
Qed.

Lemma star_comma_digit_reaches (fuel : nat) (ds : list ascii) :
  forall n pos s',
    (List.length ds <= n)%nat -> forallb is_digit ds = true ->
    In ((pos + 2 * List.length ds)%nat, s')
       (star_ends (ends comma_digit fuel) n pos (comma_digits ds ++ s')).
Proof.
  induction ds as [|d ds IH]; intros n pos s' Hn Hds.
  - destruct n; cbn [star_ends comma_digits flat_map app List.length];
      left; f_equal; lia.
  - cbn [forallb] in Hds. apply andb_true_iff in Hds. destruct Hds as [Hd Hds].
    destruct n as [|n]; [cbn in Hn; lia|].
    cbn [comma_digits flat_map app]. fold (comma_digits ds).
    cbn [star_ends]. right.
    rewrite (comma_digit_ends_of fuel pos d _ Hd).
    cbn [flat_map fst snd]. rewrite app_nil_r.
    destruct (S (S pos) =? pos)%nat eqn:E; [apply Nat.eqb_eq in E; lia|].
    replace (pos + 2 * List.length (d :: ds))%nat
      with (S (S pos) + 2 * List.length ds)%nat by (cbn [List.length]; lia).
    apply IH; [cbn [List.length] in Hn; lia|exact Hds].
Qed.

Lemma comma_digits_length (ds : list ascii) :
  List.length (comma_digits ds) = (2 * List.length ds)%nat.
Proof.
  induction ds as [|d ds IH]; [reflexivity|].
  cbn [comma_digits flat_map app List.length]. fold (comma_digits ds).
  rewrite IH. lia.
Qed.

Lemma block_pattern_accepts (d : ascii) (ds nl : list ascii) :
  is_digit d = true -> forallb is_digit ds = true ->
  nl = [] \/ nl = [newline] ->
  re_match block_pattern
    (string_of_list_ascii (d :: comma_digits ds ++ nl)) = true.
Proof.
  intros Hd Hds Hnl. unfold re_match.
  rewrite list_ascii_of_string_of_list_ascii.
  set (l := d :: comma_digits ds ++ nl). set (fuel := S (List.length l)).
  assert (Hin : In ((1 + 2 * List.length ds)%nat, nl)
                   (ends block_pattern fuel 0 l)).
  { unfold block_pattern. rewrite ends_cat. apply in_flat_map.
    exists (0%nat, l). split; [now left|]. cbn [fst snd].
    rewrite ends_cat. apply in_flat_map.
    exists (1%nat, comma_digits ds ++ nl). split.
    { unfold l. cbn [ends].
      change ((nat_of_ascii "0" <=? nat_of_ascii d)%nat
              && (nat_of_ascii d <=? nat_of_ascii "9")%nat) with (is_digit d).
      rewrite Hd. now left. }
    cbn [fst snd]. rewrite ends_cat. apply in_flat_map.
    exists ((1 + 2 * List.length ds)%nat, nl). split.
    { rewrite ends_star. fold comma_digit.
      apply star_comma_digit_reaches; [|exact Hds].
      unfold fuel, l. cbn [List.length]. rewrite length_app,
        comma_digits_length. lia. }
    cbn [fst snd ends]. destruct Hnl as [->| ->]; [now left|].
    change (Ascii.eqb newline newline) with true. now left. }
  destruct (ends block_pattern fuel 0 l); [destruct Hin|reflexivity].
Qed.

End RouterMore.

(** X14: the [block] parameter accepts exactly the texts made of one
    digit, then any number of comma-digit pairs, then at most one final
    newline, and it parses such a text into the tuple of its digits in
    order; every other text (empty, with spaces, signs, a component of two
    digits or an empty component) is refused by the validation. *)
Theorem block_dependency_exact :
  (forall d ds nl,
      RouterFacts.is_digit d = true ->
      forallb RouterFacts.is_digit ds = true ->
      nl = [] \/ nl = [Router.newline] ->
      Router.block_dependency
        (string_of_list_ascii (d :: RouterFacts.comma_digits ds ++ nl))
      = Some (Ok (map RouterFacts.digit_value (d :: ds))))
  /\ (forall raw,
         Router.block_dependency raw <> None ->
         exists d ds nl,
           RouterFacts.is_digit d = true
           /\ forallb RouterFacts.is_digit ds = true
           /\ (nl = [] \/ nl = [Router.newline])
           /\ raw = string_of_list_ascii
                      (d :: RouterFacts.comma_digits ds ++ nl)).
Proof.
  split.
  - intros d ds nl Hd Hds Hnl. unfold Router.block_dependency,
      Router.block_query_valid.
    rewrite (RouterMore.block_pattern_accepts d ds nl Hd Hds Hnl).
    cbn [string_of_list_ascii String.length Nat.leb andb].
    f_equal. unfold Router.block.
    pose proof (RouterFacts.split_block_text ds d nl Hd Hds Hnl) as Hsplit.
    unfold RouterFacts.comma in Hsplit.
    cbn [string_of_list_ascii] in Hsplit. rewrite Hsplit.
    now apply RouterFacts.int_pieces.
  - intros raw H. unfold Router.block_dependency in H.
    destruct (Router.block_query_valid raw) eqn:E; [|congruence].
    unfold Router.block_query_valid in E. apply andb_true_iff in E.
    destruct E as [_ E]. apply RouterFacts.block_pattern_shape in E.
    destruct E as [d [ds [nl [Hd [Hds [Hnl Hraw]]]]]].
    exists d, ds, nl. repeat split; try assumption.
    now rewrite <- Hraw, string_of_list_ascii_of_string.
Qed.

(** ** The [metadata] route and the search route *)

Module Routes.

(** [s.rstrip(c)] for one character [c]. *)
Fixpoint rstrip (c : ascii) (s : string) : string :=
  match s with
  | EmptyString => EmptyString
  | String d s' =>
      match rstrip c s' with
      | EmptyString =>
          if Ascii.eqb d c then EmptyString else String d EmptyString
      | r => String d r
      end
  end.

(** [s.rpartition(sep)] for a one-character separator: the text before
    the last separator, the separator, and the text after it; two empty
    strings and [s] when [s] holds no separator. *)
Definition rpartition (sep : ascii) (s : string) : string * string * string :=
  match rfind sep s with
  | Some i =>
      (substring 0 i s, String sep EmptyString,
       substring (S i) (String.length s - S i) s)
  | None => (EmptyString, EmptyString, s)
  end.

(** What a call of a collaborator of the route gives. *)
Inductive lookup_outcome (E : Type) : Type :=
| Found (entry : E)
| RaisesKeyError
| RaisesOther (exception : string).
Arguments Found {E} entry.
Arguments RaisesKeyError {E}.
Arguments RaisesOther {E} exception.

(** What a route gives: a response, an [HTTPException], or another
    exception that passes through. *)
Inductive outcome (A : Type) : Type :=
| Returns (a : A)
| RaisesHTTP (status_code : Z) (detail : string)
| Raises (exception : string).
Arguments Returns {A} a.
Arguments RaisesHTTP {A} status_code detail.
Arguments Raises {A} exception.

Section Metadata.

Variables Entry Fields User Resource : Type.
(** [get_entry(path, current_user)] and [construct_resource(key, entry,
    fields)] of [server/utils.py]. *)
Variable get_entry : string -> User -> lookup_outcome Entry.
Variable construct_resource : string -> Entry -> Fields -> Resource.

(** The route [metadata]; the response is its [data]. *)
Definition metadata (path : string) (fields : Fields) (current_user : User)
    : outcome Resource :=
  let path := rstrip "/" path in
  let '(_, _, key) := rpartition "/" path in
  match get_entry path current_user with
  | Found entry => Returns (construct_resource key entry fields)
  | RaisesKeyError => RaisesHTTP 404 "No such entry."
  | RaisesOther exception => Raises exception
  end.

End Metadata.

(** [inspect.Parameter], as far as the search route sets it. *)
Inductive parameter_kind : Type := POSITIONAL_OR_KEYWORD | VAR_KEYWORD.

Record Param : Type := {
  param_name : string;
  kind : parameter_kind;
  alias : option string;
  annotation : string
}.

(** A field of a query dataclass. *)
Record field : Type := { field_name : string; field_type : string }.

(** The parameters of [search] as it is written. *)
Definition search_parameters : list Param :=
  [ {| param_name := "path"; kind := POSITIONAL_OR_KEYWORD; alias := None;
       annotation := "Optional[str]" |};
    {| param_name := "fields"; kind := POSITIONAL_OR_KEYWORD; alias := None;
       annotation := "Optional[List[models.EntryFields]]" |};
    {| param_name := "offset"; kind := POSITIONAL_OR_KEYWORD;
       alias := Some "page[offset]"; annotation := "Optional[int]" |};
    {| param_name := "limit"; kind := POSITIONAL_OR_KEYWORD;
       alias := Some "page[limit]"; annotation := "Optional[int]" |};
    {| param_name := "current_user"; kind := POSITIONAL_OR_KEYWORD;
       alias := None; annotation := EmptyString |};
    {| param_name := "filters"; kind := VAR_KEYWORD; alias := None;
       annotation := EmptyString |} ]%string.

(** [str.isidentifier] on code points below 256: a letter or an
    underscore, then letters, digits and underscores; the letters are those
    of ASCII and, above 127, U+00AA, U+00B5, U+00BA and U+00C0 to U+00FF
    without the two signs U+00D7 and U+00F7; the middle dot U+00B7 may
    follow the first character. *)
Definition xid_start (c : ascii) : bool :=
  let n := nat_of_ascii c in
  ((65 <=? n) && (n <=? 90) || (97 <=? n) && (n <=? 122) || (n =? 95)
   || (n =? 170) || (n =? 181) || (n =? 186)
   || (192 <=? n) && (n <=? 214) || (216 <=? n) && (n <=? 246)
   || (248 <=? n))%nat.

Definition xid_continue (c : ascii) : bool :=
  let n := nat_of_ascii c in
  xid_start c || ((48 <=? n) && (n <=? 57) || (n =? 183))%nat.

Definition isidentifier (s : string) : bool :=
  match s with
  | EmptyString => false
  | String c s' => xid_start c && forallb xid_continue (list_ascii_of_string s')
  end.

(** [keyword.kwlist]. *)
Definition kwlist : list string :=
  ["False"; "None"; "True"; "and"; "as"; "assert"; "async"; "await";
   "break"; "class"; "continue"; "def"; "del"; "elif"; "else"; "except";
   "finally"; "for"; "from"; "global"; "if"; "import"; "in"; "is";
   "lambda"; "nonlocal"; "not"; "or"; "pass"; "raise"; "return"; "try";
   "while"; "with"; "yield"]%string.

Definition iskeyword (s : string) : bool := existsb (String.eqb s) kwlist.

(** The name and the parameter built at lines 104-109 for a field of a
    query. *)
Definition injected_name (name : string) (f : field) : string :=
  ("filter___" ++ name ++ "___" ++ field_name f)%string.

Definition injected_record (name : string) (f : field) : Param :=
  {| param_name := injected_name name f;
     kind := POSITIONAL_OR_KEYWORD;
     alias := Some ("filter[" ++ name ++ "][condition][" ++ field_name f ++ "]");
     annotation := "Optional[" ++ field_type f ++ "]" |}%string.

(** [inspect.Parameter(name=..., kind=POSITIONAL_OR_KEYWORD, ...)]: the
    constructor raises [ValueError] for a name that is a keyword or not an
    identifier. *)
Definition injected (name : string) (f : field) : result Param :=
  if iskeyword (injected_name name f)
     || negb (isidentifier (injected_name name f))
  then Raise ValueError
  else Ok (injected_record name f).

(** The inner loop: each field overwrites [injected_parameter]. *)
Fixpoint over_fields (name : string) (fields : list field)
    (injected_parameter : option Param) : result (option Param) :=
  match fields with
  | [] => Ok injected_parameter
  | f :: rest =>
      p <- injected name f ;; over_fields name rest (Some p)
  end.

(** The outer loop on [parameters] and [injected_parameter], which is
    unbound ([None]) until a field has been seen. *)
Fixpoint over_queries (queries : list (string * list field))
    (parameters : list Param) (injected_parameter : option Param)
    : result (list Param) :=
  match queries with
  | [] => Ok parameters
  | (name, fields) :: rest =>
      last_built <- over_fields name fields injected_parameter ;;
      match last_built with
      | None => Raise UnboundLocalError
      | Some p => over_queries rest (parameters ++ [p]) (Some p)
      end
  end.

(** The parameter list [declare_search_route] hands to
    [signature.replace], for the registry [name_to_query_type] in its
    iteration order. *)
Definition declare_search_route
    (name_to_query_type : list (string * list field))
    : result (list Param) :=
  over_queries name_to_query_type (removelast search_parameters) None.

End Routes.

Module RoutesFacts.
Import Routes.

Lemma rstrip_append_slash (c : ascii) (s : string) :
  rstrip c (s ++ String c EmptyString) = rstrip c s.
Proof.
  induction s as [|d s IH]; cbn [append rstrip].
  - now rewrite Ascii.eqb_refl.
  - now rewrite IH.
Qed.

Fixpoint ends_with (c : ascii) (s : string) : bool :=
  match s with
  | EmptyString => false
  | String d EmptyString => Ascii.eqb d c
  | String _ s' => ends_with c s'
  end.

Lemma rstrip_not_ending (c : ascii) (s : string) :
  ends_with c (rstrip c s) = false.
Proof.
  induction s as [|d s IH]; [reflexivity|]. cbn [rstrip].
  destruct (rstrip c s) as [|e r] eqn:E.
  - destruct (Ascii.eqb d c) eqn:Ed; [reflexivity|]. cbn. exact Ed.
  - cbn [ends_with]. exact IH.
Qed.

Lemma rfind_none_contains (c : ascii) (s : string) :
  rfind c s = None -> PyStr.contains c s = false.
Proof.
  induction s as [|d s IH]; [reflexivity|]. cbn [rfind PyStr.contains].
  destruct (rfind c s); [discriminate|].
  destruct (Ascii.eqb c d); [discriminate|]. intros _. now apply IH.
Qed.

Lemma substring_all (s : string) : substring 0 (String.length s) s = s.
Proof. induction s as [|d s IH]; cbn; [reflexivity|now rewrite IH]. Qed.

(** The three parts of [rpartition] make up the text again; the last part
    holds no separator; and the separator part is empty only together with
    the first part. *)
Lemma rpartition_spec (sep : ascii) (s : string) :
  let '(head, mid, tail) := rpartition sep s in
  (head ++ mid ++ tail)%string = s
  /\ PyStr.contains sep tail = false
  /\ (mid = String sep EmptyString \/ (mid = EmptyString /\ head = EmptyString)).
Proof.
  unfold rpartition. destruct (rfind sep s) as [i|] eqn:E.
  - split; [|split; [|now left]].
    + revert i E. induction s as [|d s IH]; intros i E; [discriminate|].
      cbn [rfind] in E. destruct (rfind sep s) as [j|] eqn:Ej.
      * injection E as <-. cbn [substring append String.length Nat.sub].
        f_equal. now apply IH.
      * destruct (Ascii.eqb sep d) eqn:Ed; [|discriminate].
        injection E as <-. apply Ascii.eqb_eq in Ed. subst d.
        cbn [substring append String.length Nat.sub].
        rewrite Nat.sub_0_r, substring_all. reflexivity.
    + revert i E. induction s as [|d s IH]; intros i E; [discriminate|].
      cbn [rfind] in E. destruct (rfind sep s) as [j|] eqn:Ej.
      * injection E as <-. cbn [substring String.length Nat.sub].
        now apply IH.
      * destruct (Ascii.eqb sep d) eqn:Ed; [|discriminate].
        injection E as <-. cbn [substring String.length Nat.sub].
        rewrite Nat.sub_0_r, substring_all.
        now apply rfind_none_contains.
  - split; [reflexivity|]. split; [now apply rfind_none_contains|].
    right. now split.
Qed.

(** No keyword starts like the name of an injected parameter. *)
Lemma injected_name_not_keyword (name : string) (f : field) :
  iskeyword (injected_name name f) = false.
Proof. reflexivity. Qed.

(** The fields of a query all give parameter names that
    [inspect.Parameter] accepts. *)
Definition names_accepted (q : string * list field) : Prop :=
  Forall (fun f => isidentifier (injected_name (fst q) f) = true) (snd q).

Lemma injected_accepted (name : string) (f : field) :
  isidentifier (injected_name name f) = true ->
  injected name f = Ok (injected_record name f).
Proof.
  unfold injected. rewrite injected_name_not_keyword. now intros ->.
Qed.

Lemma over_fields_last (name : string) (front : list field) :
  forall (start : option Param) (last_field : field),
    names_accepted (name, front ++ [last_field]) ->
    over_fields name (front ++ [last_field]) start
    = Ok (Some (injected_record name last_field)).
Proof.
  unfold names_accepted. cbn [fst snd].
  induction front as [|f front IH]; intros start last_field H;
    cbn [app over_fields] in *; inversion H as [|? ? Hi H']; subst.
  - now rewrite injected_accepted.
  - rewrite injected_accepted by assumption. cbn [bind]. now apply IH.
Qed.

Lemma over_fields_refused (name : string) (front : list field) :
  forall (start : option Param) (f : field) (back : list field),
    names_accepted (name, front) ->
    isidentifier (injected_name name f) = false ->
    over_fields name (front ++ f :: back) start = Raise ValueError.
Proof.
  unfold names_accepted. cbn [fst snd].
  induction front as [|g front IH]; intros start f back H Hbad;
    cbn [app over_fields].
  - unfold injected. rewrite Hbad. cbn [negb]. now rewrite orb_true_r.
  - inversion H as [|? ? Hi H']; subst.
    rewrite injected_accepted by assumption. cbn [bind]. now apply IH.
Qed.

Lemma over_queries_accepted (queries : list (string * list field)) :
  Forall (fun q => snd q <> [] /\ names_accepted q) queries ->
  forall parameters start,
    over_queries queries parameters start
    = Ok (parameters
          ++ map (fun q => injected_record (fst q)
                             (last (snd q) {| field_name := EmptyString;
                                              field_type := EmptyString |}))
                 queries).
Proof.
  induction 1 as [|[name fields] queries [Hne Hacc] _ IH];
    intros parameters start.
  - cbn. now rewrite app_nil_r.
  - cbn [over_queries map fst snd]. cbn [snd] in Hne.
    destruct (exists_last Hne) as [front [last_field ->]].
    rewrite (over_fields_last name front start last_field Hacc).
    cbn [bind]. rewrite IH, last_last, <- app_assoc. reflexivity.
Qed.

Lemma over_queries_refused (queries : list (string * list field)) :
  Forall (fun q => snd q <> [] /\ names_accepted q) queries ->
  forall parameters start name front f back rest,
    names_accepted (name, front) ->
    isidentifier (injected_name name f) = false ->
    over_queries (queries ++ (name, front ++ f :: back) :: rest)
      parameters start
    = Raise ValueError.
Proof.
  induction 1 as [|[name0 fields] queries [Hne Hacc] _ IH];
    intros parameters start name front f back rest Hfront Hbad.
  - cbn [app over_queries].
    now rewrite (over_fields_refused name front start f back Hfront Hbad).
  - cbn [app over_queries]. cbn [snd] in Hne.
    destruct (exists_last Hne) as [front0 [last_field ->]].
    rewrite (over_fields_last name0 front0 start last_field Hacc).
    cbn [bind]. now apply IH.
Qed.

End RoutesFacts.

(** X15: the [metadata] route ignores trailing slashes and looks the
    entry up under the stripped path; the key it builds the resource under
    is the last segment of that path: it holds no slash and the stripped
    path is the key itself or ends with a slash followed by the key. A
    [KeyError] of the lookup becomes the 404 "No such entry.". *)
Theorem metadata_key_is_last_segment
    (Entry Fields User Resource : Type)
    (get_entry : string -> User -> Routes.lookup_outcome Entry)
    (construct_resource : string -> Entry -> Fields -> Resource)
    (path : string) (fields : Fields) (current_user : User) :
  exists head key,
    (Routes.rstrip "/" path = head ++ key)%string
    /\ PyStr.contains "/" key = false
    /\ (head = EmptyString \/ RoutesFacts.ends_with "/" head = true)
    /\ RoutesFacts.ends_with "/" (Routes.rstrip "/" path) = false
    /\ Routes.metadata Entry Fields User Resource get_entry construct_resource
         path fields current_user
       = match get_entry (head ++ key)%string current_user with
         | Routes.Found entry =>
             Routes.Returns (construct_resource key entry fields)
         | Routes.RaisesKeyError => Routes.RaisesHTTP 404 "No such entry."
         | Routes.RaisesOther exception => Routes.Raises exception
         end
    /\ Routes.metadata Entry Fields User Resource get_entry construct_resource
         (path ++ "/") fields current_user
       = Routes.metadata Entry Fields User Resource get_entry
           construct_resource path fields current_user.
Proof.
  pose proof (RoutesFacts.rpartition_spec "/" (Routes.rstrip "/" path)) as H.
  unfold Routes.metadata.
  rewrite (RoutesFacts.rstrip_append_slash "/" path).
  destruct (Routes.rpartition "/" (Routes.rstrip "/" path))
    as [[head mid] key].
  destruct H as [Hcat [Hkey Hmid]].
  exists (head ++ mid)%string, key.
  assert (Eassoc : ((head ++ mid) ++ key)%string = Routes.rstrip "/" path).
  { rewrite <- Hcat. clear. induction head as [|d h IH]; cbn;
      [reflexivity|now rewrite IH]. }
  split; [now rewrite Eassoc|]. split; [exact Hkey|]. split.
  { destruct Hmid as [->|[-> ->]]; [right|now left].
    clear. induction head as [|d h IH]; [reflexivity|].
    cbn [append RoutesFacts.ends_with]. destruct (h ++ "/")%string eqn:E.
    - destruct h; discriminate.
    - exact IH. }
  split; [apply RoutesFacts.rstrip_not_ending|].
  split; [|reflexivity]. rewrite Eassoc. reflexivity.
Qed.

(** X16: [declare_search_route] adds one parameter for each query type of
    the registry, not one for each field, although it builds one for each
    field. When every query type has a field and every field gives a name
    that [inspect.Parameter] accepts, the parameters handed to
    [signature.replace] are those of [search] without [**filters],
    followed, in the order of the registry, by the parameter of the last
    field of each query type; the other fields get no parameter. When the
    first query type has no field the function raises
    [UnboundLocalError]. When a field, the last of its query type or not,
    gives a name that is not an identifier, after query types and fields
    that are in order, the function raises [ValueError]. *)
Theorem declare_search_route_last_fields
    (queries : list (string * list Routes.field)) :
  (Forall (fun q => snd q <> [] /\ RoutesFacts.names_accepted q) queries ->
   Routes.declare_search_route queries
   = Ok (firstn 5 Routes.search_parameters
         ++ map (fun q =>
                   Routes.injected_record (fst q)
                     (last (snd q) {| Routes.field_name := EmptyString;
                                      Routes.field_type := EmptyString |}))
                queries))
  /\ (forall name rest,
         queries = (name, []) :: rest ->
         Routes.declare_search_route queries = Raise UnboundLocalError)
  /\ (forall before name front f back rest,
         queries = before ++ (name, front ++ f :: back) :: rest ->
         Forall (fun q => snd q <> [] /\ RoutesFacts.names_accepted q)
                before ->
         RoutesFacts.names_accepted (name, front) ->
         Routes.isidentifier (Routes.injected_name name f) = false ->
         Routes.declare_search_route queries = Raise ValueError).
Proof.
  split; [|split].
  - intros H. unfold Routes.declare_search_route.
    now rewrite (RoutesFacts.over_queries_accepted queries H).
  - intros name rest ->. reflexivity.
  - intros before name front f back rest -> Hbefore Hfront Hbad.
    unfold Routes.declare_search_route.
    now apply RoutesFacts.over_queries_refused.
Qed.

(** * The key of a reader *)

Module KeyMore.
Import Hashlib KeyFacts.

Fixpoint all_hex (s : string) : bool :=
  match s with
  | EmptyString => true
  | String c s' => PyStr.contains c "0123456789abcdef" && all_hex s'
  end.

Lemma hex2_all_hex (n : nat) : (n < 256)%nat -> all_hex (PyStr.hex2 n) = true.
Proof.
  intros Hn.
  assert (H : forallb (fun k => all_hex (PyStr.hex2 k)) (seq 0 256) = true)
    by (vm_compute; reflexivity).
  rewrite forallb_forall in H. apply H, in_seq. lia.
Qed.

Lemma hex_string_shape (l : list Z) :
  Forall byte_ok l ->
  all_hex (hex_string l) = true
  /\ String.length (hex_string l) = (2 * List.length l)%nat.
Proof.
  induction 1 as [|x l Hx _ [IH1 IH2]]; [now split|].
  cbn [hex_string List.length].
  pose proof (hex2_all_hex (Z.to_nat x)) as Hhex.
  destruct (hex2_shape (Z.to_nat x)) as [a [b E]]. rewrite E in Hhex |- *.
  cbn [append all_hex String.length] in Hhex |- *.
  unfold byte_ok in Hx. specialize (Hhex ltac:(lia)).
  apply andb_true_iff in Hhex. destruct Hhex as [Ha Hb].
  apply andb_true_iff in Hb. destruct Hb as [Hb _].
  rewrite Ha, Hb, IH1, IH2. split; [reflexivity|lia].
Qed.

Lemma hexdigest_shape (st : state) :
  all_hex (hexdigest st) = true /\ String.length (hexdigest st) = 32%nat.
Proof.
  destruct st as [[[a b] c] d]. unfold hexdigest. rewrite concat_hex.
  apply hex_string_shape.
  repeat (apply Forall_app; split); apply le_bytes_ok.
Qed.

End KeyMore.

(** X19: the key a reader gets at construction is the module name, the
    class name and 32 lower-case hexadecimal digits, and it depends on the
    file list alone. The text that is hashed for it determines the file
    list: two lists with the same [str(files).encode()] are the same list.
    So two readers have the same key exactly when MD5 gives the same digest
    for the texts of their lists, which for different lists are different
    texts. *)
Theorem reader_key_of_file_list (seq1 seq2 : TiffSequence) :
  (exists digest,
      _cache_key (TiffSequenceReader_init seq1)
      = [KStr "tiled.readers.tiff_sequence"; KStr "TiffSequenceReader";
         KStr digest]
      /\ String.length digest = 32%nat
      /\ KeyMore.all_hex digest = true)
  /\ (PyStr.str_list (files seq1) = PyStr.str_list (files seq2)
      -> files seq1 = files seq2)
  /\ (PyStr.encode (PyStr.str_list (files seq1))
      = PyStr.encode (PyStr.str_list (files seq2))
      -> files seq1 = files seq2)
  /\ (_cache_key (TiffSequenceReader_init seq1)
      = _cache_key (TiffSequenceReader_init seq2)
      <-> Hashlib.md5 (PyStr.encode (PyStr.str_list (files seq1)))
          = Hashlib.md5 (PyStr.encode (PyStr.str_list (files seq2)))).
Proof.
  split; [|split; [|split]].
  - exists (fingerprint (files seq1)). split; [reflexivity|].
    unfold fingerprint.
    destruct (KeyMore.hexdigest_shape
                (Hashlib.md5 (PyStr.encode (PyStr.str_list (files seq1)))))
      as [Hhex Hlen].
    now split.
  - apply KeyFacts.str_list_inj.
  - apply KeyFacts.message_inj.
  - unfold TiffSequenceReader_init, fingerprint. cbn [_cache_key]. split.
    + intros [= E]. revert E.
      apply KeyFacts.hexdigest_inj; apply KeyFacts.md5_ok.
    + now intros ->.
Qed.

(** * The further properties on the reference backend *)

Module DemoMore.

(** The directory of [Demo.dir] listed in another order, with a hidden
    file and a subdirectory beside the frames. *)
Definition dir_other_listing : directory :=
  {| dirpath := "/data/scan";
     iterdir := Dirs.regular ".thumbs" :: Dirs.frames "img" 10
                ++ [{| name := "raw"; is_file := false |}] |}.

(** A decoder for colour frames: every file holds 2 x 2 pixels of three
    channels. *)
Definition rgb_frame : ndarray :=
  {| shape := [2; 2; 3]; data := [1; 2; 3; 4; 5; 6; 7; 8; 9; 10; 11; 12] |}.

Definition imread_rgb (path : string) : result ndarray := Ok rgb_frame.

(** A decoder that fails on the fifth file and reads the others. *)
Definition imread_torn (path : string) : result ndarray :=
  if String.eqb path "/data/scan/img005.tif" then Raise OSError
  else Demo.imread path.

(** A decoder for files that have become unreadable. *)
Definition imread_gone (path : string) : result ndarray := Raise OSError.

Definition asarray_all_gone (fs : list string) : result ndarray :=
  Raise OSError.

Definition queries : list (string * list Routes.field) :=
  [("fulltext"%string,
    [{| Routes.field_name := "text"; Routes.field_type := "str" |};
     {| Routes.field_name := "case_sensitive"; Routes.field_type := "bool" |}]);
   ("lookup"%string,
    [{| Routes.field_name := "key"; Routes.field_type := "str" |}])]%string.

End DemoMore.

(** The letters and digits of identifiers among the code points below
    256. *)
Example xid_start_table :
  filter (fun n => Routes.xid_start (ascii_of_nat n)) (seq 0 256)
  = (seq 65 26 ++ [95] ++ seq 97 26 ++ [170; 181; 186] ++ seq 192 23
     ++ seq 216 31 ++ seq 248 8)%nat.
Proof. vm_compute. reflexivity. Qed.

Example xid_continue_table :
  filter (fun n => Routes.xid_continue (ascii_of_nat n)) (seq 0 256)
  = (seq 48 10 ++ seq 65 26 ++ [95] ++ seq 97 26 ++ [170; 181; 183; 186]
     ++ seq 192 23 ++ seq 216 31 ++ seq 248 8)%nat.
Proof. vm_compute. reflexivity. Qed.

(** A registry key with a hyphen is refused by [inspect.Parameter]. *)
Example declare_search_route_hyphen :
  Routes.declare_search_route
    [("full-text"%string,
      [{| Routes.field_name := "text"; Routes.field_type := "str" |}])]
  = Raise ValueError.
Proof. vm_compute. reflexivity. Qed.

Example declare_search_route_demo :
  option_map (map Routes.param_name)
    (match Routes.declare_search_route DemoMore.queries with
     | Ok l => Some l
     | Raise _ => None
     end)
  = Some ["path"; "fields"; "offset"; "limit"; "current_user";
          "filter___fulltext___case_sensitive"; "filter___lookup___key"]%string.
Proof. vm_compute. reflexivity. Qed.

Example metadata_key_demo :
  (Routes.rpartition "/" (Routes.rstrip "/" "/scans/2021/run7//"),
   Routes.rpartition "/" (Routes.rstrip "/" "/"),
   Routes.rpartition "/" (Routes.rstrip "/" "run7"))
  = (("/scans/2021", "/", "run7"), ("", "", ""), ("", "", "run7"))%string.
Proof. vm_compute. reflexivity. Qed.

(** * Frames with more than two axes *)

(** C9 (as stated, refuted): over the ten files of the reference directory
    read as colour frames of 2 x 2 pixels with three channels,
    [macrostructure] returns the shape [(10, 2, 2, 3)] with the three chunk
    axes [((1,) * 10, (2,), (2,))]: the shape is not
    [(file_count, height, width)], and the chunk sizes, which add up to
    [(10, 2, 2)], do not give the extent of every axis. *)
Lemma macrostructure_colour_frames :
  exists ms,
    fst (macrostructure DemoMore.imread_rgb Demo.asarray_all false
           Demo.np_getitem Demo.reader (empty 16)) = Ok ms
    /\ ms_shape ms = [10; 2; 2; 3]
    /\ ms_chunks ms = [repeat 1 10; [2]; [2]]
    /\ map (fun sizes => fold_right Z.add 0 sizes) (ms_chunks ms)
       = [10; 2; 2]
    /\ map (fun sizes => fold_right Z.add 0 sizes) (ms_chunks ms)
       <> ms_shape ms.
Proof.
  eexists. split; [vm_compute; reflexivity|].
  cbn [ms_shape ms_chunks].
  split; [reflexivity|]. split; [reflexivity|].
  split; [reflexivity|]. vm_compute. discriminate.
Qed.

(** C4 (as stated, refuted): over the same colour frames the in-range
    block [(3, 0, 0)] comes back with the shape [(1, 2, 2, 3)], while the
    chunk sizes the macrostructure gives for that block are
    [(1, 2, 2)]. *)
Lemma read_block_colour_frames :
  exists arr ms,
    0 <= 3 < Z.of_nat (List.length (files (_seq Demo.reader)))
    /\ fst (read_block DemoMore.imread_rgb Demo.asarray_all false
              Demo.np_getitem Demo.reader [3; 0; 0] PNone (empty 16))
       = Ok (Some arr)
    /\ shape arr = [1; 2; 2; 3]
    /\ fst (macrostructure DemoMore.imread_rgb Demo.asarray_all false
              Demo.np_getitem Demo.reader (empty 16)) = Ok ms
    /\ chunk_size ms 0 3 = Ok 1
    /\ chunk_size ms 1 0 = Ok 2
    /\ chunk_size ms 2 0 = Ok 2
    /\ shape arr <> [1; 2; 2].
Proof.
  eexists. eexists.
  split; [vm_compute; split; [discriminate|reflexivity]|].
  split; [vm_compute; reflexivity|]. cbn [shape].
  split; [reflexivity|].
  split; [vm_compute; reflexivity|].
  split; [reflexivity|]. split; [reflexivity|]. split; [reflexivity|].
  discriminate.
Qed.

Lemma sniffed_files_sorted_matches_witness :
  Sorted SortFacts.le_str (files (_seq Demo.reader))
  /\ Permutation (files (_seq Demo.reader))
       (map (child_path Demo.dir) (filter is_match (iterdir Demo.dir)))
  /\ files (_seq Demo.reader) <> [].
Proof.
  apply (sniffed_files_sorted_matches Demo.dir Demo.reader).
  vm_compute. reflexivity.
Defined.

Lemma subdirectory_handler_listing_order_witness :
  subdirectory_handler Demo.dir
  = subdirectory_handler DemoMore.dir_other_listing.
Proof.
  apply (subdirectory_handler_listing_order Demo.dir
           DemoMore.dir_other_listing).
  - reflexivity.
  - change (filter eligible (iterdir Demo.dir))
      with (rev (Dirs.frames "img" 10)).
    change (filter eligible (iterdir DemoMore.dir_other_listing))
      with (Dirs.frames "img" 10).
    apply Permutation_sym, Permutation_rev.
Defined.

Lemma read_again_is_served_from_cache_witness :
  fst (read DemoMore.imread_gone DemoMore.asarray_all_gone true
         Demo.np_getitem Demo.reader (PInt 5)
         (snd (Demo.read Demo.reader (PInt 5) (empty 16))))
  = Ok (Some (Demo.frame 5)).
Proof.
  apply (read_again_is_served_from_cache Demo.imread DemoMore.imread_gone
           Demo.asarray_all DemoMore.asarray_all_gone false true
           Demo.np_getitem Demo.np_getitem Demo.reader 5 (empty 16)
           (Demo.frame 5)).
  - apply le_n_S, Nat.le_0_l.
  - vm_compute. reflexivity.
Defined.

Lemma read_ignores_cache_witness :
  fst (Demo.read Demo.reader (PTuple [PInt 3])
         (snd (Demo.read Demo.reader (PInt 3) (empty 16))))
  = fst (Demo.read Demo.reader (PTuple [PInt 3]) (empty 0))
  /\ cache_faithful Demo.imread Demo.asarray_all Demo.reader
       (snd (Demo.read Demo.reader (PTuple [PInt 3])
               (snd (Demo.read Demo.reader (PInt 3) (empty 16))))).
Proof.
  apply (read_ignores_cache Demo.imread Demo.asarray_all false
           Demo.np_getitem Demo.reader (PTuple [PInt 3])).
  apply (read_ignores_cache Demo.imread Demo.asarray_all false
           Demo.np_getitem Demo.reader (PInt 3) (empty 16)).
  apply cache_faithful_empty.
Defined.

Lemma read_block_sub_selector_witness :
  (forall arr c',
      Demo.read_block Demo.reader [3; 0; 0] PNone (empty 16)
      = (Ok (Some arr), c') ->
      Demo.read_block Demo.reader [3; 0; 0] (PTuple []) (empty 16)
      = (arr' <- Demo.np_getitem arr (PTuple []) ;; Ok (Some arr'), c'))
  /\ (forall e c',
         Demo.read_block Demo.reader [3; 0; 0] PNone (empty 16)
         = (Raise e, c') ->
         Demo.read_block Demo.reader [3; 0; 0] (PTuple []) (empty 16)
         = (Raise e, c')).
Proof.
  apply (read_block_sub_selector Demo.imread Demo.asarray_all false
           Demo.np_getitem Demo.reader [3; 0; 0] (PTuple []) (empty 16)).
  discriminate.
Defined.

Lemma read_range_not_clamped_witness :
  fst (Demo.read Demo.reader (PSlice (Some 8) (Some 12) None) (empty 16))
  = Raise IndexError.
Proof.
  apply (read_range_not_clamped Demo.imread Demo.asarray_all false
           Demo.np_getitem Demo.reader (Some 8) None 12 (empty 16)
           [8; 9] [11] 10).
  - apply cache_ok_empty.
  - reflexivity.
  - repeat constructor.
    + exists (Demo.frame 8). vm_compute. reflexivity.
    + exists (Demo.frame 9). vm_compute. reflexivity.
  - left. vm_compute. discriminate.
Defined.

Lemma read_index_bounds_witness :
  (- 10 <= - 1 < 0 ->
   fst (Demo.read Demo.reader (PInt (- 1)) (empty 16))
   = fst (Demo.read Demo.reader (PInt (- 1 + 10)) (empty 16))
   /\ _cache_key Demo.reader ++ [KInt (- 1)]
      <> _cache_key Demo.reader ++ [KInt (- 1 + 10)])
  /\ (10 <= - 1 \/ - 1 < - 10 ->
      Demo.read Demo.reader (PInt (- 1)) (empty 16)
      = (Raise IndexError, empty 16)).
Proof.
  apply (read_index_bounds Demo.imread Demo.asarray_all false
           Demo.np_getitem Demo.reader (- 1) (empty 16)).
  apply cache_ok_empty.
Defined.

Lemma macrostructure_by_frame_rank_witness :
  fst (macrostructure DemoMore.imread_rgb Demo.asarray_all false
         Demo.np_getitem Demo.reader (empty 16))
  = Ok {| ms_shape := [10; 2; 2; 3];
          ms_chunks := [repeat 1 10; [2]; [2]] |}.
Proof.
  apply (macrostructure_by_frame_rank DemoMore.imread_rgb Demo.asarray_all
           false Demo.np_getitem Demo.reader (empty 16) DemoMore.rgb_frame).
  - apply cache_ok_empty.
  - vm_compute. reflexivity.
Defined.

Lemma read_block_wrong_arity_witness :
  Demo.read_block Demo.reader [3; 0] PNone (empty 16)
  = (Raise IndexError, empty 16)
  /\ Demo.read_block Demo.reader [] PNone (empty 16)
     = (Raise IndexError, empty 16).
Proof.
  split.
  - apply (read_block_wrong_arity Demo.imread Demo.asarray_all false
             Demo.np_getitem Demo.reader [3; 0] PNone (empty 16)).
    discriminate.
  - apply (read_block_wrong_arity Demo.imread Demo.asarray_all false
             Demo.np_getitem Demo.reader [] PNone (empty 16)).
    discriminate.
Defined.

Lemma read_block_negative_index_witness :
  fst (Demo.read_block Demo.reader [- 1; 0; 0] PNone (empty 16))
  = Ok (Some {| shape := 1 :: shape (Demo.frame 9);
                data := data (Demo.frame 9) |}).
Proof.
  apply (read_block_negative_index Demo.imread Demo.asarray_all false
           Demo.np_getitem Demo.reader (empty 16) (- 1) (Demo.frame 9)).
  - apply cache_ok_empty.
  - vm_compute. split; [discriminate|reflexivity].
  - vm_compute. reflexivity.
Defined.

Lemma read_range_failure_keeps_frames_witness :
  fst (read DemoMore.imread_torn Demo.asarray_all false Demo.np_getitem
         Demo.reader (PSlice (Some 2) (Some 7) None) (empty 16))
  = Raise OSError
  /\ lookup (_cache_key Demo.reader ++ [KInt 3])
       (entries
          (snd (read DemoMore.imread_torn Demo.asarray_all false
                  Demo.np_getitem Demo.reader
                  (PSlice (Some 2) (Some 7) None) (empty 16))))
     = Some (Demo.frame 3).
Proof.
  destruct (read_range_failure_keeps_frames DemoMore.imread_torn
              Demo.asarray_all false Demo.np_getitem Demo.reader
              (Some 2) None 7 (empty 16) [2; 3] [5; 6] 4 OSError)
    as [Hraise [Hkept _]].
  - apply cache_ok_empty.
  - reflexivity.
  - repeat constructor.
    + exists (Demo.frame 2). vm_compute. reflexivity.
    + exists (Demo.frame 3). vm_compute. reflexivity.
  - vm_compute. reflexivity.
  - cbn [empty capacity List.length]. lia.
  - split; [exact Hraise|]. apply Hkept.
    + right. now left.
    + vm_compute. reflexivity.
Defined.

Lemma read_writes_own_keys_only_witness :
  In (_cache_key Demo.reader ++ [KInt 4], Demo.frame 4) (entries (empty 16))
  \/ (_cache_key Demo.reader ++ [KInt 4] = _cache_key Demo.reader
      /\ Demo.asarray_all (files (_seq Demo.reader)) = Ok (Demo.frame 4))
  \/ exists i,
       _cache_key Demo.reader ++ [KInt 4] = _cache_key Demo.reader ++ [KInt i]
       /\ Demo.frame_at Demo.reader i = Ok (Demo.frame 4).
Proof.
  apply (read_writes_own_keys_only Demo.imread Demo.asarray_all false
           Demo.np_getitem Demo.reader (PSlice (Some 3) (Some 6) None)
           (empty 16)).
  vm_compute. right. left. reflexivity.
Defined.
